(** * Chart repository index and repository provider (package [repo])

    A shallow embedding of [pkg/repo/index.go] (the catalog: [IndexFile],
    [ChartVersions], [Get], [Has], [Merge], [SortEntries], [LoadIndex] and
    the legacy loader, [IndexDirectory], [DownloadIndexFile], [WriteFile],
    [LoadIndexFile]) and of the repository provider ([repoProvider],
    [createRepo], [findRepoByURL], [GetRepoByURL], [GetRepoByName],
    [GetChartByReference] and the storage client of [gcsRepoProvider]).

    Conventions of the embedding.
    - Go strings are byte strings: [string], with [String.length] for [len].
    - A Go map is a [gmap]; a [nil] map and an empty map read alike and are
      not told apart (an assignment into a [nil] map, which panics, is not
      modelled: the maps written to are those [NewIndexFile] and
      [newRepoProvider] make; the provider is a record of the state its
      methods read, whatever made it).  [range] over a map visits the entries in an
      order chosen by the runtime: every such loop runs over [mapRange m],
      where [mapRange] is any enumeration of the map ([MapOrder]).
    - Slices are lists.  Records reached through pointers ([*ChartVersion],
      [*chart.Metadata]) are taken to be non-nil and are compared by value.
    - [(T, error)] results are [result T].
    - Libraries outside the package (semver, yaml, json, net/url, path)
      are interfaces, with a reference instance each; of [sort] the
      insertion sort that short slices get is written out and the rest is an
      interface.
    - Every call of [time.Now()] has a reading of its own: [NewIndexFile]
      and [Add] take the reading as an argument, and a function that makes
      several takes the sequence of them ([Clock]). *)

From Stdlib Require Import Ascii String.
From stdpp Require Import base option list list_monad strings gmap fin_maps sorting.

Local Open Scope string_scope.
Local Open Scope list_scope.
Local Open Scope nat_scope.

(** ** Errors and results *)

Inductive error : Type :=
| ErrNoAPIVersion                 (* errors.New("no API version specified") *)
| ErrNoChartVersion               (* errors.New("no chart version found") *)
| ErrNoChartName                  (* errors.New("no chart name found") *)
| Errorf (msg : string)           (* a value built by fmt.Errorf *)
| ErrExternal (msg : string).     (* an error handed back by a library or service *)

Inductive result (A : Type) : Type :=
| OK (a : A)
| Fail (e : error).
Arguments OK {A} a.
Arguments Fail {A} e.

Definition isOK {A} (r : result A) : bool :=
  match r with OK _ => true | Fail _ => false end.

Global Instance error_eq_dec : EqDecision error.
Proof. solve_decision. Defined.

(** ** Data model *)

Definition Time := Z.

(** The readings of [time.Now()] that one call makes, the first being
    reading [0]: every call of [time.Now()] gets a reading of its own. *)
Definition Clock := nat → Time.

(** The elements of a list, each with the number of the turn of a loop
    that visits it, the first turn being turn [k]. *)
Fixpoint numberedFrom {A : Type} (k : nat) (l : list A) : list (nat * A) :=
  match l with
  | [] => []
  | x :: rest => (k, x) :: numberedFrom (S k) rest
  end.

(** Modelled from the spec: [chart.Metadata] is declared in
    [pkg/proto/hapi/chart], another package of the repository.  The catalog reads its
    [Name] and [Version]; the remaining descriptor fields are passed through
    untouched and are kept as one opaque list. *)
Record chart_Metadata : Type := {
  Name : string;
  Version : string;
  Fields : list (string * string)
}.

(** [ChartVersion] embeds [*chart.Metadata]; the coercion plays the part of
    Go's field promotion ([cv.Name], [cv.Version]). *)
Record ChartVersion : Type := {
  Metadata :> chart_Metadata;
  URLs : list string;
  Created : Time;
  Removed : bool;
  Digest : string
}.

Global Instance chart_Metadata_eq_dec : EqDecision chart_Metadata.
Proof. solve_decision. Defined.
Global Instance ChartVersion_eq_dec : EqDecision ChartVersion.
Proof. solve_decision. Defined.

Abbreviation ChartVersions := (list ChartVersion).

Record IndexFile : Type := {
  APIVersion : string;
  Generated : Time;
  Entries : gmap string ChartVersions;
  PublicKeys : list string
}.

Definition APIVersionV1 : string := "v1".

Definition NewIndexFile (now : Time) : IndexFile :=
  {| APIVersion := APIVersionV1; Generated := now;
     Entries := ∅; PublicKeys := [] |}.

(** [i.Entries[name] = vs] on the map shared by every copy of the struct. *)
Definition setEntry (name : string) (vs : ChartVersions) (i : IndexFile) : IndexFile :=
  {| APIVersion := APIVersion i; Generated := Generated i;
     Entries := <[name := vs]> (Entries i); PublicKeys := PublicKeys i |}.

(** ** The order of a [range] over a map *)

(** The runtime's choice of an order is any function that enumerates the
    map; no operation below ranges twice over one map. *)

Class MapOrder : Type := {
  mapRange : ∀ {V : Type}, gmap string V → list (string * V);
  mapRange_perm : ∀ (V : Type) (m : gmap string V), mapRange m ≡ₚ map_to_list m
}.

(** ** Lookup *)

(** The loop of [Get]: the first record whose version is the string asked for. *)
Fixpoint findVersion (version : string) (vs : ChartVersions) : option ChartVersion :=
  match vs with
  | [] => None
  | ver :: rest =>
      if decide (Version ver = version) then Some ver
      else findVersion version rest
  end.

Definition versionNotFound (name version : string) : error :=
  Errorf ("No chart version found for " +:+ name +:+ "-" +:+ version).

Definition Get (i : IndexFile) (name version : string) : result ChartVersion :=
  match Entries i !! name with
  | None => Fail ErrNoChartName
  | Some vs =>
      match vs with
      | [] => Fail ErrNoChartVersion
      | v0 :: _ =>
          if decide (String.length version = 0) then OK v0
          else match findVersion version vs with
               | Some ver => OK ver
               | None => Fail (versionNotFound name version)
               end
      end
  end.

Definition Has (i : IndexFile) (name version : string) : bool :=
  isOK (Get i name version).

(** ** Package [strings] *)

Module strings.

(** [len(s) >= len(prefix) && s[0:len(prefix)] == prefix] *)
Definition HasPrefix (s prefix : string) : bool :=
  bool_decide ((String.length prefix ≤ String.length s)%nat
               ∧ String.substring 0 (String.length prefix) s = prefix).

(** [len(s) >= len(suffix) && s[len(s)-len(suffix):] == suffix] *)
Definition HasSuffix (s suffix : string) : bool :=
  bool_decide ((String.length suffix ≤ String.length s)%nat
               ∧ String.substring (String.length s - String.length suffix)
                   (String.length suffix) s = suffix).

Definition TrimSuffix (s suffix : string) : string :=
  if HasSuffix s suffix
  then String.substring 0 (String.length s - String.length suffix) s
  else s.

(** [Split(s, sep)] for a separator of one byte, the only use the package
    makes of it: the pieces of [s] between the occurrences of [sep], so
    that a string without [sep] (the empty one too) gives one piece. *)
Fixpoint Split (s : string) (sep : ascii) : list string :=
  match s with
  | EmptyString => [""]
  | String c rest =>
      if decide (c = sep) then "" :: Split rest sep
      else match Split rest sep with
           | [] => [String c ""]
           | piece :: pieces => String c piece :: pieces
           end
  end.

End strings.

(** [s] cut at the first [sep]: what is before it, and what is after it
    if [sep] occurs. *)
Fixpoint cut (s : string) (sep : ascii) : string * option string :=
  match s with
  | EmptyString => ("", None)
  | String x rest =>
      if decide (x = sep) then ("", Some rest)
      else let '(b, a) := cut rest sep in (String x b, a)
  end.

(** ** Package [semver] (github.com/Masterminds/semver)

    The library is outside the repository; the catalog uses [NewVersion],
    which fails on a string that is no semantic version, and [LessThan],
    which is [Compare] being negative. *)

Module semver.

Class Lib : Type := {
  Version : Type;
  NewVersion : string → string + Version;    (* [inl msg]: parse error *)
  Compare : Version → Version → comparison   (* -1, 0, 1 *)
}.

Definition LessThan `{Lib} (v o : Version) : bool :=
  match Compare v o with Lt => true | _ => false end.

(** What the catalog relies on: [Compare] is a total preorder on parsed
    versions (versions that differ in build metadata only compare [Eq]). *)
Class Laws (L : Lib) : Prop := {
  Compare_antisym : ∀ v o : Version, Compare o v = CompOpp (Compare v o);
  Compare_trans : ∀ a b c : Version,
    Compare a b ≠ Gt → Compare b c ≠ Gt → Compare a c ≠ Gt
}.

End semver.

(** ** Package [sort] *)

Module sort.

(** [sort.Interface], the data being the receiver of the three methods. *)
Record Interface (D : Type) : Type := {
  Len : D → nat;
  Less : D → nat → nat → bool;
  Swap : D → nat → nat → D
}.
Arguments Len {D} _ _.
Arguments Less {D} _ _ _ _.
Arguments Swap {D} _ _ _ _.

(** [Reverse] keeps [Len] and [Swap] and answers [Less(i, j)] by the
    wrapped [Less(j, i)]. *)
Definition Reverse {D} (I : Interface D) : Interface D :=
  {| Len := Len I; Less := λ d i j, Less I d j i; Swap := Swap I |}.

(** The inner loop of [insertionSort]:
    [for j := i; j > a && data.Less(j, j-1); j-- { data.Swap(j, j-1) }]. *)
Fixpoint sink {D} (I : Interface D) (a j : nat) (data : D) : D :=
  match j with
  | 0 => data
  | S j' =>
      if bool_decide (a < j) && Less I data j j'
      then sink I a j' (Swap I data j j')
      else data
  end.

(** [for i := a + 1; i < b; i++ { ... }] *)
Definition insertionSort {D} (I : Interface D) (data : D) (a b : nat) : D :=
  foldl (λ d i, sink I a i d) data (seq (a + 1) (b - (a + 1))).

(** On a slice of more than [maxInsertion] elements the library runs its
    pattern-defeating quicksort, which is outside the repository.  Like
    every routine of the package it reads the data through [Less] and
    changes it through [Swap] only: what it does to a slice is the sequence
    of [Swap] calls it makes, which [swaps] stands for. *)
Class Lib : Type := {
  swaps : ∀ {D : Type}, Interface D → D → list (nat * nat)
}.

Definition swapAll {D} (I : Interface D) (data : D) (calls : list (nat * nat)) : D :=
  foldl (λ d '(i, j), Swap I d i j) data calls.

Definition maxInsertion : nat := 12.

(** [Sort], as of Go 1.19: [n := data.Len()], then
    [pdqsort(data, 0, n, limit)], whose first test is
    [if length <= maxInsertion { insertionSort(data, a, b); return }]. *)
Definition Sort `{Lib} {D} (I : Interface D) (data : D) : D :=
  let n := Len I data in
  if decide (n ≤ maxInsertion) then insertionSort I data 0 n
  else swapAll I data (swaps I data).

(** What is relied on for a long slice.  The library documents the result
    for a [Less] that is a strict weak order; the [Less] of the catalog is
    none (two malformed versions are each less than the other).  The
    quicksort, the heapsort and the insertion sort the library is made of
    move an element past another on the strength of an answer of [Less]
    only, so that the following holds of them: whenever every answer is
    sound for a transitive relation [R] ([true]: the first may stand before
    the second; [false]: the second may stand before the first), the
    slice ends up in the order [R]. *)
Class Laws (L : Lib) : Prop := {
  swaps_sorted :
    ∀ (A : Type) (I : Interface (list A)) (lt : A → A → bool) (R : A → A → Prop),
      (∀ l, Len I l = length l) →
      (∀ l i j x y, l !! i = Some x → l !! j = Some y → Less I l i j = lt x y) →
      (∀ l i j x y, l !! i = Some x → l !! j = Some y →
         Swap I l i j = <[j := x]> (<[i := y]> l)) →
      (∀ x y z, R x y → R y z → R x z) →
      (∀ x y, lt x y = true → R x y) →
      (∀ x y, lt x y = false → R y x) →
      ∀ l : list A, maxInsertion < length l →
        StronglySorted R (swapAll I l (swaps I l))
}.

End sort.

(** ** [ChartVersions] as a [sort.Interface] *)

(** The body of [Less] on the two version strings (the spec's
    VersionOrdering): a failed parse on the left answers [true], else a
    failed parse on the right answers [false]. *)
Definition VersionOrdering `{semver.Lib} (a b : string) : bool :=
  match semver.NewVersion a with
  | inl _ => true
  | inr i =>
      match semver.NewVersion b with
      | inl _ => false
      | inr j => semver.LessThan i j
      end
  end.

Definition Len (c : ChartVersions) : nat := length c.

(** [c[i], c[j] = c[j], c[i]]; an index out of range panics in Go and
    leaves the list alone here ([sort] never passes one). *)
Definition Swap (c : ChartVersions) (i j : nat) : ChartVersions :=
  match c !! i, c !! j with
  | Some x, Some y => <[j := x]> (<[i := y]> c)
  | _, _ => c
  end.

(** [Less(a, b)] reads [c[a].Version] and [c[b].Version] and compares them;
    an index out of range, which panics in Go, answers [false]. *)
Definition Less `{semver.Lib} (c : ChartVersions) (a b : nat) : bool :=
  match (c !! a : option ChartVersion), (c !! b : option ChartVersion) with
  | Some x, Some y => VersionOrdering (Version x) (Version y)
  | _, _ => false
  end.

Definition ChartVersions_sort `{semver.Lib} : sort.Interface ChartVersions :=
  {| sort.Len := Len; sort.Less := Less; sort.Swap := Swap |}.

(** Every list is sorted in place, in its own backing array: the order in
    which the names are visited does not show in the result. *)
Definition SortEntries `{semver.Lib} `{sort.Lib} (i : IndexFile) : IndexFile :=
  {| APIVersion := APIVersion i; Generated := Generated i;
     Entries := sort.Sort (sort.Reverse ChartVersions_sort) <$> Entries i;
     PublicKeys := PublicKeys i |}.

(** ** Adding a record *)

(** [net/url], [path] and [path/filepath], as far as [Add] and [urlJoin]
    use them. *)
Class PathLib : Type := {
  URL_t : Type;
  url_Parse : string → string + URL_t;
  url_Path : URL_t → string;
  url_withPath : URL_t → string → URL_t;
  url_String : URL_t → string;
  path_Join : list string → string;
  filepath_Split : string → string * string;
  filepath_Join : list string → string
}.

Definition urlJoin `{PathLib} (baseURL : string) (paths : list string) : string + string :=
  match url_Parse baseURL with
  | inl err => inl err
  | inr u =>
      let all := url_Path u :: paths in
      inr (url_String (url_withPath u (path_Join all)))
  end.

(** [now] is the reading of [time.Now()]. *)
Definition Add `{PathLib} (now : Time) (i : IndexFile)
    (md : chart_Metadata) (filename baseURL digest : string) : IndexFile :=
  let u :=
    if decide (baseURL = "") then filename
    else
      let file := (filepath_Split filename).2 in
      match urlJoin baseURL [file] with
      | inr u => u
      | inl _ => filepath_Join [baseURL; file]
      end in
  let cr := {| Metadata := md; URLs := [u]; Created := now;
               Removed := false; Digest := digest |} in
  match Entries i !! Name md with
  | None => setEntry (Name md) [cr] i
  | Some ee => setEntry (Name md) (ee ++ [cr]) i
  end.

(** ** Merge *)

(** The body of the inner loop of [Merge]; reading an absent name gives the
    nil slice, to which [append] adds. *)
Definition mergeOne (i : IndexFile) (cv : ChartVersion) : IndexFile :=
  if negb (Has i (Name cv) (Version cv)) then
    let e := default [] (Entries i !! Name cv) in
    setEntry (Name cv) (e ++ [cv]) i
  else i.

(** The two loops of [Merge] over a given sequence of visited entries. *)
Definition mergeEntries (visited : list (string * ChartVersions)) (i : IndexFile) : IndexFile :=
  foldl (λ i '(_, cvs), foldl mergeOne i cvs) i visited.

(** [i.Merge(f)].  The loop runs over the entries [f] holds when it starts;
    where [i] and [f] are one catalog, Go may also visit the names the loop
    itself adds. *)
Definition Merge `{MapOrder} (i f : IndexFile) : IndexFile :=
  mergeEntries (mapRange (Entries f)) i.

(** ** Loading *)

(** The deprecated flat format. *)
Record unversionedEntry : Type := {
  Checksum : string;
  URL : string;
  Chartfile : option chart_Metadata
}.

(** [yaml.Unmarshal] into an [IndexFile], [yaml.YAMLToJSON], and
    [json.Unmarshal] into the flat map; [inl msg] is the decoder's error,
    which is never one of the package's own error values. *)
Class Decoder : Type := {
  yaml_Unmarshal : string → string + IndexFile;
  yaml_YAMLToJSON : string → string + string;
  json_Unmarshal : string → string + gmap string unversionedEntry
}.

(** The descriptor the legacy loader hands to [Add] for the entry under
    key [n]. *)
Definition legacyChartfile (n : string) (item : unversionedEntry) : chart_Metadata :=
  let derived :=
    let parts := strings.Split n "-" in
    let ver :=
      if bool_decide (1 < length parts)
      then strings.TrimSuffix (default "" (parts !! 1)) ".tgz"
      else "" in
    {| Name := default "" (parts !! 0); Version := ver; Fields := [] |} in
  match Chartfile item with
  | None => derived
  | Some md => if decide (Name md = "") then derived else md
  end.

(** The warning written to the standard error stream is left out.
    [NewIndexFile] takes reading [0] of the clock and the [Add] of the
    [k]-th turn of the loop takes reading [k]. *)
Definition loadUnversionedIndex `{Decoder} `{MapOrder} `{PathLib}
    (clock : Clock) (data : string) : result IndexFile :=
  match yaml_YAMLToJSON data with
  | inl err => Fail (ErrExternal err)
  | inr json =>
      match json_Unmarshal json with
      | inl err => Fail (ErrExternal err)
      | inr i =>
          if decide (size i = 0) then Fail ErrNoAPIVersion
          else
            OK (foldl (λ ni '(k, (n, item)),
                         Add (clock k) ni (legacyChartfile n item)
                           (URL item) "" (Checksum item))
                  (NewIndexFile (clock 0)) (numberedFrom 1 (mapRange i)))
      end
  end.

Definition LoadIndex `{Decoder} `{MapOrder} `{PathLib}
    (clock : Clock) (data : string) : result IndexFile :=
  match yaml_Unmarshal data with
  | inl err => Fail (ErrExternal err)
  | inr i =>
      if decide (APIVersion i = "") then loadUnversionedIndex clock data
      else OK i
  end.

(** ** The repository provider *)

(** Modelled from the spec: the interfaces [IRepo] (a repository
    descriptor) and [IChartRepo] (a live handle) are declared in another
    file of the package; each is kept as the record of what its getters
    return. *)
Record IRepo : Type := {
  repoName : string;
  repoURL : string;
  GetType : string;
  GetCredentialName : string
}.

Record IChartRepo : Type := {
  GetName : string;
  GetURL : string;
  credentialName : string;
  client : string
}.

Global Instance IChartRepo_eq_dec : EqDecision IChartRepo.
Proof. solve_decision. Defined.

(** Modelled from the spec: the tag of the one storage kind with a factory;
    the constant is declared in another file of the package. *)
Definition GCSRepoType : string := "gcs".

(** [IRepoService] and [GCSRepoProvider], used through these methods. *)
Record IRepoService : Type := {
  rs_Get : string → result IRepo;
  rs_GetByURL : string → result IRepo
}.

Record GCSRepoProvider : Type := {
  GetGCSRepo : IRepo → result IChartRepo
}.

Record repoProvider : Type := {
  rs : IRepoService;
  gcsrp : GCSRepoProvider;
  repos : gmap string IChartRepo
}.

Definition setRepos (rp : repoProvider) (m : gmap string IChartRepo) : repoProvider :=
  {| rs := rs rp; gcsrp := gcsrp rp; repos := m |}.

Definition duplicateRepository (name : string) : error :=
  Errorf ("respository named " +:+ name +:+ " already exists").

(** The methods run with the provider's lock held; each maps the state
    before the call to the result and the state after it. *)

Definition createRepo (rp : repoProvider) (cr : IChartRepo)
    : result IChartRepo * repoProvider :=
  let name := GetName cr in
  match repos rp !! name with
  | Some _ => (Fail (duplicateRepository name), rp)
  | None => (OK cr, setRepos rp (<[name := cr]> (repos rp)))
  end.

Definition createRepoByType (rp : repoProvider) (r : IRepo)
    : result IChartRepo * repoProvider :=
  if decide (GetType r = GCSRepoType) then
    match GetGCSRepo (gcsrp rp) r with
    | Fail err => (Fail err, rp)
    | OK cr => createRepo rp cr
    end
  else (Fail (Errorf ("unknown repository type: " +:+ GetType r)), rp).

(** One turn of the loop of [findRepoByURL]. *)
Definition findStep (URL : string) (found : option IChartRepo) (r : IChartRepo)
    : option IChartRepo :=
  let rURL := GetURL r in
  if strings.HasPrefix URL rURL then
    match found with
    | None => Some r
    | Some f =>
        if decide (String.length (GetURL f) < String.length rURL)%nat
        then Some r else found
    end
  else found.

Definition findRepoByURL `{MapOrder} (rp : repoProvider) (URL : string)
    : option IChartRepo :=
  foldl (findStep URL) None (mapRange (repos rp)).*2.

Definition GetRepoByName (rp : repoProvider) (repoName : string)
    : result IChartRepo * repoProvider :=
  match repos rp !! repoName with
  | Some r => (OK r, rp)
  | None =>
      match rs_Get (rs rp) repoName with
      | Fail err => (Fail err, rp)
      | OK cr => createRepoByType rp cr
      end
  end.

Definition GetRepoByURL `{MapOrder} (rp : repoProvider) (URL : string)
    : result IChartRepo * repoProvider :=
  match findRepoByURL rp URL with
  | Some r => (OK r, rp)
  | None =>
      match rs_GetByURL (rs rp) URL with
      | Fail err => (Fail err, rp)
      | OK cr => createRepoByType rp cr
      end
  end.

(** ** Reference instances of the interfaces *)

(** The enumeration of a map that [gmap] itself provides. *)
Definition listOrder : MapOrder :=
  {| mapRange := λ V (m : gmap string V), map_to_list m;
     mapRange_perm := λ V (m : gmap string V), reflexivity (map_to_list m) |}.

(** URLs as plain strings joined with a slash. *)
Definition plainPaths : PathLib :=
  {| URL_t := string;
     url_Parse := λ s, inr s;
     url_Path := λ u, u;
     url_withPath := λ _ p, p;
     url_String := λ u, u;
     path_Join := String.concat "/";
     filepath_Split := λ s, ("", s);
     filepath_Join := String.concat "/" |}.

(** The [Swap] calls the insertion sort makes, for a reference instance of
    [sort.swaps]: those of one [sort.sink], and those of the turns [turns]
    of the outer loop. *)
Fixpoint sinkSwaps {D} (I : sort.Interface D) (a j : nat) (data : D)
    : list (nat * nat) :=
  match j with
  | 0 => []
  | S j' =>
      if bool_decide (a < j) && sort.Less I data j j'
      then (j, j') :: sinkSwaps I a j' (sort.Swap I data j j')
      else []
  end.

Fixpoint insertionSwaps {D} (I : sort.Interface D) (a : nat) (turns : list nat)
    (data : D) : list (nat * nat) :=
  match turns with
  | [] => []
  | i :: rest =>
      sinkSwaps I a i data ++ insertionSwaps I a rest (sort.sink I a i data)
  end.

Definition insertionLib : sort.Lib :=
  {| sort.swaps := λ D I data,
       insertionSwaps I 0 (seq 1 (sort.Len I data - 1)) data |}.

(** A decoder given by the tables of what each document decodes to. *)
Definition tableDecoder (current : string → string + IndexFile)
    (legacy : string → string + gmap string unversionedEntry) : Decoder :=
  {| yaml_Unmarshal := current;
     yaml_YAMLToJSON := λ data, inr data;
     json_Unmarshal := legacy |}.

(** A small semantic-version library: [v?MAJOR[.MINOR[.PATCH]][-PRE][+META]],
    ordered by major, minor, patch, a release above its pre-releases, and
    pre-release tags as byte strings; build metadata is ignored. *)
Module semver_ref.

Record t : Type := {
  major : N; minor : N; patch : N;
  pre : string; metadata : string
}.

Definition isDigit (c : ascii) : bool :=
  bool_decide (48 ≤ nat_of_ascii c ≤ 57)%nat.

Definition isIdentChar (c : ascii) : bool :=
  let n := nat_of_ascii c in
  isDigit c || bool_decide (65 ≤ n ≤ 90)%nat || bool_decide (97 ≤ n ≤ 122)%nat
  || bool_decide (n = 45)%nat || bool_decide (n = 46)%nat.

(** The leading decimal number of [s], if [s] starts with a digit, and
    what follows it. *)
Fixpoint readDigits (acc : option N) (s : string) : option N * string :=
  match s with
  | String c rest =>
      if isDigit c
      then readDigits (Some (10 * default 0%N acc + (N_of_ascii c - 48))%N) rest
      else (acc, s)
  | EmptyString => (acc, s)
  end.

Definition validTag (s : string) : bool :=
  bool_decide (s ≠ "") && forallb isIdentChar (list_ascii_of_string s).

(** An optional [.NUMBER]. *)
Definition readPart (s : string) : option (N * string) :=
  match s with
  | String "." rest =>
      match readDigits None rest with
      | (Some n, rest') => Some (n, rest')
      | (None, _) => None
      end
  | _ => Some (0%N, s)
  end.

Definition tags (s : string) : option (string * string) :=
  match s with
  | EmptyString => Some ("", "")
  | String "-" rest =>
      match cut rest "+" with
      | (p, None) => if validTag p then Some (p, "") else None
      | (p, Some m) => if validTag p && validTag m then Some (p, m) else None
      end
  | String "+" rest => if validTag rest then Some ("", rest) else None
  | _ => None
  end.

Definition parse (s : string) : string + t :=
  let body := match s with String "v" rest => rest | _ => s end in
  let invalid := inl "Invalid Semantic Version" in
  match readDigits None body with
  | (None, _) => invalid
  | (Some ma, r1) =>
      match readPart r1 with
      | None => invalid
      | Some (mi, r2) =>
          match readPart r2 with
          | None => invalid
          | Some (pa, r3) =>
              match tags r3 with
              | None => invalid
              | Some (p, m) =>
                  inr {| major := ma; minor := mi; patch := pa;
                         pre := p; metadata := m |}
              end
          end
      end
  end.

Definition thenCompare (c1 c2 : comparison) : comparison :=
  match c1 with Eq => c2 | _ => c1 end.

Definition comparePre (p q : string) : comparison :=
  match p, q with
  | EmptyString, EmptyString => Eq
  | EmptyString, _ => Gt
  | _, EmptyString => Lt
  | _, _ => String.compare p q
  end.

Definition compare (v o : t) : comparison :=
  thenCompare (N.compare (major v) (major o))
    (thenCompare (N.compare (minor v) (minor o))
       (thenCompare (N.compare (patch v) (patch o))
          (comparePre (pre v) (pre o)))).

(** [compare] is the lexicographic order of these keys. *)
Definition lexCompare {A B : Type} (ca : A → A → comparison)
    (cb : B → B → comparison) (p q : A * B) : comparison :=
  thenCompare (ca p.1 q.1) (cb p.2 q.2).

Definition key (v : t) : N * (N * (N * string)) :=
  (major v, (minor v, (patch v, pre v))).

Definition lib : semver.Lib :=
  {| semver.Version := t; semver.NewVersion := parse; semver.Compare := compare |}.

End semver_ref.

(** ** Vocabulary of the properties *)

(** The list a catalog reads under a name, nil when the name is absent. *)
Definition entriesOf (i : IndexFile) (name : string) : ChartVersions :=
  default [] (Entries i !! name).

(** [cv] is one of the records of the catalog. *)
Definition holds (f : IndexFile) (cv : ChartVersion) : Prop :=
  ∃ k cvs, Entries f !! k = Some cvs ∧ cv ∈ cvs.

(** What one turn of the loop of [Merge] appends to the list under [name]. *)
Definition appended (i : IndexFile) (cv : ChartVersion) (name : string) : ChartVersions :=
  if Has i (Name cv) (Version cv) then []
  else if decide (Name cv = name) then [cv] else [].

(** Every record is filed under its own name, as [Add] files it. *)
Definition wellKeyed (c : IndexFile) : Prop :=
  map_Forall (λ k cvs, Forall (λ cv : ChartVersion, Name cv = k) cvs) (Entries c).

(** What the loop of [findRepoByURL] has in hand after the handles [seen]:
    nothing if none of them matches, else a matching handle with a base
    URL of the greatest length among the matching ones. *)
Definition longestMatch (URL : string) (seen : list IChartRepo)
    (found : option IChartRepo) : Prop :=
  match found with
  | None => ∀ r, r ∈ seen → strings.HasPrefix URL (GetURL r) = false
  | Some f =>
      f ∈ seen ∧ strings.HasPrefix URL (GetURL f) = true
      ∧ ∀ r, r ∈ seen → strings.HasPrefix URL (GetURL r) = true →
             (String.length (GetURL r) ≤ String.length (GetURL f))%nat
  end.

(** [s] does not contain the byte [sep]. *)
Definition without (sep : ascii) (s : string) : Prop :=
  sep ∉ list_ascii_of_string s.

Global Instance without_dec sep s : Decision (without sep s).
Proof. unfold without. apply _. Defined.

Global Instance wellKeyed_dec c : Decision (wellKeyed c).
Proof. unfold wellKeyed. apply _. Defined.

(** The version of a legacy key as the spec words it, "the portion
    after" the first dash taken whole: all that follows the first dash,
    less a trailing archive extension, and the empty string for a key
    without a dash. *)
Definition statedLegacyVersion (n : string) : string :=
  match cut n "-" with
  | (_, Some rest) => strings.TrimSuffix rest ".tgz"
  | (_, None) => ""
  end.

(** A version string parses, or fails to parse, as a semantic version. *)
Definition wellFormed `{semver.Lib} (version : string) : Prop :=
  ∃ v, semver.NewVersion version = inr v.

Definition malformed `{semver.Lib} (version : string) : Prop :=
  ∃ msg, semver.NewVersion version = inl msg.

(** [x] may stand before [y] in a sorted list: a version that parses
    stands before one that does not and before a parsed one that is not
    above it; two versions that do not parse stand either way. *)
Definition precedes `{semver.Lib} (x y : ChartVersion) : Prop :=
  match semver.NewVersion (Version x), semver.NewVersion (Version y) with
  | inr vx, inr vy => semver.Compare vx vy ≠ Lt
  | inr _, inl _ => True
  | inl _, inl _ => True
  | inl _, inr _ => False
  end.

(** The insertion sort on the list itself: [bubble] moves [x] leftwards
    past the elements it is [lt] than, the part of the list before [x]
    being kept in reverse. *)
Fixpoint bubble {A : Type} (lt : A → A → bool) (x : A) (before : list A) : list A :=
  match before with
  | [] => [x]
  | y :: r => if lt x y then y :: bubble lt x r else x :: y :: r
  end.

Definition insertAll {A : Type} (lt : A → A → bool) (l : list A) : list A :=
  rev (foldl (λ acc x, bubble lt x acc) [] l).

(** [Less] as [sort.Reverse] hands it to the sort, on the records. *)
Definition reverseLess `{semver.Lib} (x y : ChartVersion) : bool :=
  VersionOrdering (Version y) (Version x).

(** ** Sample data *)

(** A clock that starts at [start] and advances by one with every reading. *)
Definition ticks (start : Time) : Clock := λ k, (start + Z.of_nat k)%Z.

Definition record (name version digest : string) : ChartVersion :=
  {| Metadata := {| Name := name; Version := version; Fields := [] |};
     URLs := []; Created := 0%Z; Removed := false; Digest := digest |}.

Definition catalog (entries : list (string * ChartVersions)) : IndexFile :=
  {| APIVersion := APIVersionV1; Generated := 0%Z;
     Entries := list_to_map entries; PublicKeys := [] |}.

Definition handle (name url : string) : IChartRepo :=
  {| GetName := name; GetURL := url; credentialName := ""; client := "default" |}.

(** A provider whose descriptor service knows no repository. *)
Definition provider (handles : list (string * IChartRepo)) : repoProvider :=
  {| rs := {| rs_Get := λ _, Fail (ErrExternal "repository not found");
              rs_GetByURL := λ _, Fail (ErrExternal "repository not found") |};
     gcsrp := {| GetGCSRepo := λ r, OK (handle (repoName r) (repoURL r)) |};
     repos := list_to_map handles |}.

Definition store : repoProvider :=
  provider [("charts", handle "charts" "https://store.example.com/charts");
            ("root", handle "root" "https://store.example.com")].

(** The catalogs of the spec's example: one pair held by both with
    different digests, and one pair held by the second only. *)
Definition c1 : IndexFile := catalog [("x", [record "x" "1.0.0" "AAA"])].

Definition c2 : IndexFile :=
  catalog [("x", [record "x" "1.0.0" "BBB"; record "x" "2.0.0" "CCC"])].

(** A catalog with a record of empty version, as the legacy loader makes
    one for a key without a dash. *)
Definition unversioned : IndexFile :=
  catalog [("x", [record "x" "1.0.0" "AAA"; record "x" "" "BBB"])].

(** A catalog, as a document may spell one, with a record filed under a
    name that is not its own. *)
Definition misfiled : IndexFile := catalog [("a", [record "b" "1.0.0" "AAA"])].

(** A legacy entry with a URL only: no checksum and no descriptor. *)
Definition bare (url : string) : unversionedEntry :=
  {| Checksum := ""; URL := url; Chartfile := None |}.

(** A decoder that knows three documents: a current one, an empty one and
    a legacy one with the single key [foo-1.2.3]. *)
Definition sampleDecoder : Decoder :=
  tableDecoder
    (λ data, if decide (data = "apiVersion: v1") then inr (catalog [])
             else inr {| APIVersion := ""; Generated := 0%Z;
                         Entries := ∅; PublicKeys := [] |})
    (λ data, if decide (data = "{}") then inr ∅
             else if decide (data = "foo-1.2.3: {url: http://example.com/foo-1.2.3.tgz}")
             then inr {[ "foo-1.2.3" := bare "http://example.com/foo-1.2.3.tgz" ]}
             else inl "cannot unmarshal").

(** A catalog with an unsorted list of versions, two of which are no
    semantic versions. *)
Definition mixed : IndexFile :=
  catalog [("x", [record "x" "1.2.0" "A"; record "x" "latest" "B";
                  record "x" "2.0.0-rc.1" "C"; record "x" "stable" "D";
                  record "x" "2.0.0" "E"; record "x" "0.9" "F"])].

(** ** Files, the network and directories *)

(** [io/ioutil], [net/http], [path/filepath], [chartutil] and
    [provenance], as far as the catalog uses them.  The file system is a
    state [FS] that a write maps to a new state; a failed write may leave
    any state behind.  Of a loaded chart the catalog uses the [Metadata],
    which is what [chartutil_Load] gives. *)
Class IOLib : Type := {
  FS : Type;
  Response : Type;
  http_Get : string → string + Response;
  ioutil_ReadAll : Response → string + string;
  ioutil_ReadFile : FS → string → string + string;
  ioutil_WriteFile : FS → string → string → N → option string * FS;
  filepath_Glob : FS → string → string + list string;
  filepath_Base : string → string;
  chartutil_Load : FS → string → string + chart_Metadata;
  provenance_DigestFile : FS → string → string + string
}.

(** [yaml.Marshal] of a catalog. *)
Class Encoder : Type := {
  yaml_Marshal : IndexFile → string + string
}.

(** A Go [error] result: [None] is [nil]. *)
Definition external (err : string) : option error := Some (ErrExternal err).

(** [i.WriteFile(dest, mode)]: the error returned and the file system
    after the call. *)
Definition WriteFile `{Encoder} `{IOLib} (fs : FS) (i : IndexFile)
    (dest : string) (mode : N) : option error * FS :=
  match yaml_Marshal i with
  | inl err => (external err, fs)
  | inr b =>
      let '(err, fs') := ioutil_WriteFile fs dest b mode in
      (ErrExternal <$> err, fs')
  end.

Definition LoadIndexFile `{Decoder} `{MapOrder} `{PathLib} `{IOLib}
    (clock : Clock) (fs : FS) (path : string) : result IndexFile :=
  match ioutil_ReadFile fs path with
  | inl err => Fail (ErrExternal err)
  | inr b => LoadIndex clock b
  end.

(** The address [DownloadIndexFile] fetches. *)
Definition indexURL (url : string) : string :=
  strings.TrimSuffix url "/" +:+ "/index.yaml".

(** [0644] *)
Definition indexFileMode : N := 420.

Definition DownloadIndexFile `{Decoder} `{MapOrder} `{PathLib} `{IOLib}
    (clock : Clock) (fs : FS) (repoName url indexFilePath : string)
    : option error * FS :=
  match http_Get (indexURL url) with
  | inl err => (external err, fs)
  | inr resp =>
      match ioutil_ReadAll resp with
      | inl err => (external err, fs)
      | inr b =>
          match LoadIndex clock b with
          | Fail err => (Some err, fs)
          | OK _ =>
              let '(err, fs') := ioutil_WriteFile fs indexFilePath b indexFileMode in
              (ErrExternal <$> err, fs')
          end
      end
  end.

(** The loop of [IndexDirectory] over the archives that remain: the index
    built and the error that stopped the loop, if one did.  [k] is the
    number of readings of the clock made so far; an archive that is
    skipped takes none. *)
Fixpoint indexArchives `{PathLib} `{IOLib} (clock : Clock) (k : nat) (fs : FS)
    (baseURL : string) (archives : list string) (index : IndexFile)
    : IndexFile * option error :=
  match archives with
  | [] => (index, None)
  | arch :: rest =>
      let fname := filepath_Base arch in
      match chartutil_Load fs arch with
      | inl _ => indexArchives clock k fs baseURL rest index
      | inr md =>
          match provenance_DigestFile fs arch with
          | inl err => (index, external err)
          | inr hash =>
              indexArchives clock (S k) fs baseURL rest
                (Add (clock k) index md fname baseURL hash)
          end
      end
  end.

(** [IndexDirectory(dir, baseURL)]: the pair the function returns, the
    index being [nil] when the directory cannot be listed. *)
Definition IndexDirectory `{PathLib} `{IOLib} (clock : Clock) (fs : FS)
    (dir baseURL : string) : option IndexFile * option error :=
  match filepath_Glob fs (filepath_Join [dir; "*.tgz"]) with
  | inl err => (None, external err)
  | inr archives =>
      let '(index, err) :=
        indexArchives clock 1 fs baseURL archives (NewIndexFile (clock 0)) in
      (Some index, err)
  end.

(** ** Chart references and storage clients *)

(** Modelled from the spec: the chart locator ([chart.Parse], [Long], the
    fields [Name] and [Version]), the pattern [GCSChartURLMatcher] and the
    method [GetChart] of a handle are declared in other files of the
    repository; they are kept as the functions the provider calls. *)
Class ChartLib : Type := {
  Locator : Type;
  Chart : Type;
  chart_Parse : string → string + Locator;
  Long : Locator → bool → string + string;
  locatorName : Locator → string;
  locatorVersion : Locator → string;
  FindStringSubmatch : string → list string;
  GetChart : IChartRepo → string → result Chart
}.

Definition ParseGCSChartReference `{ChartLib} (r : string) : result Locator :=
  match chart_Parse r with
  | inl err => Fail (Errorf ("cannot parse chart reference " +:+ r +:+ ": " +:+ err))
  | inr l =>
      match Long l true with
      | inl err =>
          Fail (Errorf ("chart reference " +:+ r +:+ " does not resolve to a URL: " +:+ err))
      | inr URL =>
          if decide (length (FindStringSubmatch URL) ≠ 4)
          then Fail (Errorf ("chart reference " +:+ r +:+ " resolve to invalid URL: " +:+ URL))
          else OK l
      end
  end.

Definition IsGCSChartReference `{ChartLib} (r : string) : bool :=
  isOK (ParseGCSChartReference r).

Definition chartFileName `{ChartLib} (l : Locator) : string :=
  locatorName l +:+ "-" +:+ locatorVersion l +:+ ".tgz".

Definition GetChartByReference `{MapOrder} `{ChartLib} (rp : repoProvider)
    (reference : string) : result (Chart * IChartRepo) * repoProvider :=
  match ParseGCSChartReference reference with
  | Fail err => (Fail err, rp)
  | OK l =>
      match Long l true with
      | inl err =>
          (Fail (Errorf ("invalid reference " +:+ reference +:+ ": " +:+ err)), rp)
      | inr URL =>
          match GetRepoByURL rp URL with
          | (Fail err, rp') => (Fail err, rp')
          | (OK r, rp') =>
              match GetChart r (chartFileName l) with
              | Fail err => (Fail err, rp')
              | OK c => (OK (c, r), rp')
              end
          end
      end
  end.

(** A call either returns or, through [log.Fatalf], ends the process. *)
Inductive outcome (A : Type) : Type :=
| Returns (a : A)
| Exits (msg : string).
Arguments Returns {A} a.
Arguments Exits {A} msg.

(** Modelled from the spec: the credential provider, the OAuth
    configuration and the constructor [NewGCSRepo] are declared in other
    files or outside the repository; a client is the opaque value a handle
    carries. *)
Class GCSLib : Type := {
  GetCredential : string → string + string;     (* the service account *)
  JWTConfigFromJSON : string → string + string;  (* read-only scope *)
  configClient : string → string;
  DefaultClient : string;
  NewGCSRepo : string → string → string → string → result IChartRepo
}.

(** The methods of the struct [gcsRepoProvider]. *)
Module gcsRepoProvider.

Definition createGCSClient `{GCSLib} (credentialName : string)
    : outcome (result string) :=
  if decide (credentialName = "") then Returns (OK DefaultClient)
  else
    match GetCredential credentialName with
    | inl _ => Returns (OK DefaultClient)
    | inr serviceAccount =>
        match JWTConfigFromJSON serviceAccount with
        | inl err => Exits ("cannot parse client secret file: " +:+ err)
        | inr config => Returns (OK (configClient config))
        end
    end.

Definition GetGCSRepo `{GCSLib} (r : IRepo) : outcome (result IChartRepo) :=
  match createGCSClient (GetCredentialName r) with
  | Exits msg => Exits msg
  | Returns (Fail err) => Returns (Fail err)
  | Returns (OK client) =>
      Returns (NewGCSRepo (repoName r) (repoURL r) (GetCredentialName r) client)
  end.

End gcsRepoProvider.

(** ** Further vocabulary *)

(** The record [Add] builds. *)
Definition addedRecord `{PathLib} (now : Time) (md : chart_Metadata)
    (filename baseURL digest : string) : ChartVersion :=
  let u :=
    if decide (baseURL = "") then filename
    else
      let file := (filepath_Split filename).2 in
      match urlJoin baseURL [file] with
      | inr u => u
      | inl _ => filepath_Join [baseURL; file]
      end in
  {| Metadata := md; URLs := [u]; Created := now;
     Removed := false; Digest := digest |}.

(** The record the legacy loader makes of the entry under key [n]. *)
Definition legacyRecord (now : Time) (n : string) (item : unversionedEntry)
    : ChartVersion :=
  {| Metadata := legacyChartfile n item; URLs := [URL item]; Created := now;
     Removed := false; Digest := Checksum item |}.

(** Every cached handle is stored under its own name. *)
Definition keyedByName (rp : repoProvider) : Prop :=
  map_Forall (λ name r, GetName r = name) (repos rp).

(** Every archive of the list that loads has a digest. *)
Definition digestible `{IOLib} (fs : FS) (archives : list string) : Prop :=
  ∀ arch md, arch ∈ archives → chartutil_Load fs arch = inr md →
    ∃ hash, provenance_DigestFile fs arch = inr hash.

(** A write that succeeds can be read back. *)
Definition readsBack `{IOLib} : Prop :=
  ∀ (fs fs' : FS) path data mode,
    ioutil_WriteFile fs path data mode = (None, fs') →
    ioutil_ReadFile fs' path = inr data.

(** The archive loads as a chart. *)
Definition loads `{IOLib} (fs : FS) (arch : string) : bool :=
  match chartutil_Load fs arch with inr _ => true | inl _ => false end.

(** The record [IndexDirectory] files for an archive, if the archive
    loads and has a digest. *)
Definition archiveRecord `{PathLib} `{IOLib} (now : Time) (fs : FS)
    (baseURL arch : string) : option ChartVersion :=
  match chartutil_Load fs arch, provenance_DigestFile fs arch with
  | inr md, inr hash => Some (addedRecord now md (filepath_Base arch) baseURL hash)
  | _, _ => None
  end.

(** ** Further sample data *)

(** The last component of a slash-separated path. *)
Definition lastComponent (path : string) : string :=
  default "" (last (strings.Split path "/")).

(** An environment given by tables: the archives a directory listing
    finds, what each archive loads to, its digest, and what the network
    answers; files are a map from paths to contents and every write
    succeeds. *)
Definition tableIO (archives : list string)
    (charts : string → string + chart_Metadata)
    (digests : string → string + string)
    (web : string → string + string) : IOLib :=
  {| FS := gmap string string;
     Response := string;
     http_Get := web;
     ioutil_ReadAll := λ resp, inr resp;
     ioutil_ReadFile := λ fs path,
       match fs !! path with
       | Some data => inr data
       | None => inl "no such file"
       end;
     ioutil_WriteFile := λ fs path data _, (None, <[path := data]> fs);
     filepath_Glob := λ _ _, inr archives;
     filepath_Base := lastComponent;
     chartutil_Load := λ _, charts;
     provenance_DigestFile := λ _, digests |}.

(** A directory with two charts, a file that is no chart, and a chart
    whose digest cannot be computed; a network with one catalog. *)
Definition sampleIO : IOLib :=
  tableIO ["charts/a-1.0.0.tgz"; "charts/notes.tgz"; "charts/b-2.0.0.tgz";
           "charts/c-0.1.0.tgz"; "charts/d-0.2.0.tgz"]
    (λ arch,
       if decide (arch = "charts/a-1.0.0.tgz")
       then inr {| Name := "a"; Version := "1.0.0"; Fields := [] |}
       else if decide (arch = "charts/b-2.0.0.tgz")
       then inr {| Name := "b"; Version := "2.0.0"; Fields := [] |}
       else if decide (arch = "charts/c-0.1.0.tgz")
       then inr {| Name := "c"; Version := "0.1.0"; Fields := [] |}
       else if decide (arch = "charts/d-0.2.0.tgz")
       then inr {| Name := "d"; Version := "0.2.0"; Fields := [] |}
       else inl "not a chart")
    (λ arch, if decide (arch = "charts/c-0.1.0.tgz") then inl "unreadable"
             else inr ("sha256:" +:+ arch))
    (λ url, if decide (url = "http://example.com/index.yaml")
            then inr "apiVersion: v1" else inl "connection refused").

(** The same directory without the chart whose digest fails. *)
Definition tidyIO : IOLib :=
  tableIO ["charts/a-1.0.0.tgz"; "charts/notes.tgz"; "charts/b-2.0.0.tgz"]
    (λ arch,
       if decide (arch = "charts/a-1.0.0.tgz")
       then inr {| Name := "a"; Version := "1.0.0"; Fields := [] |}
       else if decide (arch = "charts/b-2.0.0.tgz")
       then inr {| Name := "b"; Version := "2.0.0"; Fields := [] |}
       else inl "not a chart")
    (λ arch, inr ("sha256:" +:+ arch))
    (λ url, inl "connection refused").

(** A legacy document with three entries: one without a descriptor, one
    with a descriptor, and one whose key has no dash. *)
Definition legacyDocument : string :=
  "{foo-1.2.3: {checksum: sha1:aaa, url: http://example.com/foo-1.2.3.tgz}, "
  +:+ "foo-latest: {checksum: sha1:bbb, url: http://example.com/foo-latest.tgz, "
  +:+ "chartfile: {name: foo, version: 2.0.0}}, "
  +:+ "bar: {checksum: sha1:ccc, url: http://example.com/bar.tgz}}".

Definition legacyEntries : gmap string unversionedEntry :=
  list_to_map
    [("foo-1.2.3", {| Checksum := "sha1:aaa";
                      URL := "http://example.com/foo-1.2.3.tgz";
                      Chartfile := None |});
     ("foo-latest", {| Checksum := "sha1:bbb";
                       URL := "http://example.com/foo-latest.tgz";
                       Chartfile := Some {| Name := "foo"; Version := "2.0.0";
                                            Fields := [] |} |});
     ("bar", {| Checksum := "sha1:ccc";
                URL := "http://example.com/bar.tgz";
                Chartfile := None |})].

Definition legacyDecoder : Decoder :=
  tableDecoder
    (λ data, inr {| APIVersion := ""; Generated := 0%Z;
                    Entries := ∅; PublicKeys := [] |})
    (λ data, if decide (data = legacyDocument) then inr legacyEntries
             else inl "cannot unmarshal").

(** An encoder that knows how the empty current catalog is written. *)
Definition sampleEncoder : Encoder :=
  {| yaml_Marshal := λ i,
       if decide (APIVersion i = APIVersionV1 ∧ Entries i = ∅)
       then inr "apiVersion: v1" else inl "cannot marshal" |}.

(** What a resolution may do to the provider: on an error nothing; on
    success either nothing, the handle returned being cached already, or
    the insertion of the handle returned under its own name, which was
    free.  The services are never replaced. *)
Definition resolved (rp : repoProvider) (res : result IChartRepo)
    (rp' : repoProvider) : Prop :=
  rs rp' = rs rp ∧ gcsrp rp' = gcsrp rp
  ∧ match res with
    | Fail _ => rp' = rp
    | OK r =>
        (rp' = rp ∧ ∃ name, repos rp !! name = Some r)
        ∨ (repos rp !! GetName r = None
           ∧ rp' = setRepos rp (<[GetName r := r]> (repos rp)))
    end.

(** A provider with an empty cache whose descriptor service knows one
    repository, under its name [real], under the other name [alias], and
    under two addresses. *)
Definition served : repoProvider :=
  let real := {| repoName := "real"; repoURL := "gs://real";
                 GetType := GCSRepoType; GetCredentialName := "" |} in
  {| rs :=
       {| rs_Get := λ name,
            if decide (name = "real" ∨ name = "alias") then OK real
            else Fail (ErrExternal "repository not found");
          rs_GetByURL := λ url,
            if decide (url = "gs://real/a-1.0.0.tgz" ∨ url = "gs://mirror/a-1.0.0.tgz")
            then OK real else Fail (ErrExternal "repository not found") |};
     gcsrp := {| GetGCSRepo := λ r, OK (handle (repoName r) (repoURL r)) |};
     repos := ∅ |}.

(** References [name/version] to charts of the repository [gs://real];
    a handle serves the chart [a-1.0.0.tgz] only. *)
Definition sampleCharts : ChartLib :=
  {| Locator := string * string;
     Chart := string;
     chart_Parse := λ r,
       match strings.Split r "/" with
       | [name; version] => inr (name, version)
       | _ => inl "malformed reference"
       end;
     Long := λ l _, inr ("gs://real/" +:+ l.1 +:+ "-" +:+ l.2 +:+ ".tgz");
     locatorName := λ l, l.1;
     locatorVersion := λ l, l.2;
     FindStringSubmatch := λ url,
       if strings.HasPrefix url "gs://" then [url; "real"; "a"; "1.0.0"] else [];
     GetChart := λ r file,
       if decide (file = "a-1.0.0.tgz") then OK ("chart " +:+ file)
       else Fail (ErrExternal "no such chart") |}.

(** Credentials: one that is a service account, one that is not. *)
Definition sampleGCS : GCSLib :=
  {| GetCredential := λ name,
       if decide (name = "good") then inr "{account}"
       else if decide (name = "broken") then inr "garbage"
       else inl "credential not found";
     JWTConfigFromJSON := λ json,
       if decide (json = "{account}") then inr "config" else inl "invalid JSON";
     configClient := λ config, "client of " +:+ config;
     DefaultClient := "default";
     NewGCSRepo := λ name url credential client,
       if strings.HasPrefix url "gs://"
       then OK {| GetName := name; GetURL := url;
                  credentialName := credential; client := client |}
       else Fail (ErrExternal "invalid URL") |}.

(** * Properties *)

(** ** The helpers at work *)

Example parse_1_2_3 :
  semver_ref.parse "1.2.3"
  = inr {| semver_ref.major := 1; semver_ref.minor := 2; semver_ref.patch := 3;
           semver_ref.pre := ""; semver_ref.metadata := "" |}.
Proof. reflexivity. Qed.

Example parse_v2_rc :
  semver_ref.parse "v2.0-rc.1+build5"
  = inr {| semver_ref.major := 2; semver_ref.minor := 0; semver_ref.patch := 0;
           semver_ref.pre := "rc.1"; semver_ref.metadata := "build5" |}.
Proof. reflexivity. Qed.

Example parse_latest : semver_ref.parse "latest" = inl "Invalid Semantic Version".
Proof. reflexivity. Qed.

Example parse_four_parts : semver_ref.parse "1.2.3.4" = inl "Invalid Semantic Version".
Proof. reflexivity. Qed.

Example Split_foo : strings.Split "foo-1.2.3" "-" = ["foo"; "1.2.3"].
Proof. reflexivity. Qed.

Example Split_none : strings.Split "" "-" = [""].
Proof. reflexivity. Qed.

Example TrimSuffix_tgz : strings.TrimSuffix "1.2.3.tgz" ".tgz" = "1.2.3".
Proof. reflexivity. Qed.

(** ** Lookup *)

Lemma length_zero_empty (s : string) : String.length s = 0 ↔ s = "".
Proof. destruct s; simpl; split; intros; done. Qed.

Lemma findVersion_Some version vs ver :
  findVersion version vs = Some ver → ver ∈ vs ∧ Version ver = version.
Proof.
  induction vs as [|v vs IH]; simpl; [done|].
  case_decide as Hv.
  - intros [= <-]. split; [left | done].
  - intros [Hin Heq]%IH. split; [by right | done].
Qed.

Lemma findVersion_None version vs :
  findVersion version vs = None ↔ Forall (λ ver : ChartVersion, Version ver ≠ version) vs.
Proof.
  induction vs as [|v vs IH]; simpl.
  - split; [constructor | done].
  - case_decide as Hv.
    + split; [done | by inversion 1].
    + rewrite IH. split; [by constructor | by inversion 1].
Qed.

Lemma findVersion_app_l version vs ext ver :
  findVersion version vs = Some ver → findVersion version (vs ++ ext) = Some ver.
Proof.
  induction vs as [|v vs IH]; simpl; [done|]. by case_decide.
Qed.

Lemma findVersion_app_r version vs ext :
  findVersion version vs = None →
  findVersion version (vs ++ ext) = findVersion version ext.
Proof.
  induction vs as [|v vs IH]; simpl; [done|]. by case_decide.
Qed.

(** C3.  [Get(name, version)] fails with [ErrNoChartName] when the name is
    absent and with [ErrNoChartVersion] when the name maps to a list of
    length zero; on a list that is not empty it returns the element at
    index 0 when [version] is the empty string, whatever the order of the
    list, and fails with the version-not-found error when [version] is not
    empty and no record carries exactly that version string. *)
Theorem Get_cases (i : IndexFile) (name version : string) :
  (Entries i !! name = None → Get i name version = Fail ErrNoChartName)
  ∧ (Entries i !! name = Some [] → Get i name version = Fail ErrNoChartVersion)
  ∧ (∀ vs v0, Entries i !! name = Some vs → vs !! 0 = Some v0 →
       version = "" → Get i name version = OK v0)
  ∧ (∀ vs, Entries i !! name = Some vs → vs ≠ [] → version ≠ "" →
       Forall (λ ver : ChartVersion, Version ver ≠ version) vs →
       Get i name version = Fail (versionNotFound name version)).
Proof.
  unfold Get. repeat split.
  - by intros ->.
  - by intros ->.
  - intros vs v0 -> Hv0 ->. destruct vs as [|v vs]; [done|].
    simpl in *. by injection Hv0 as ->.
  - intros vs -> Hne Hver Hall. destruct vs as [|v vs]; [done|].
    case_decide as Hlen; [by apply length_zero_empty in Hlen|].
    apply findVersion_None in Hall. by rewrite Hall.
Qed.

(** When the version asked for is not empty and occurs, [Get] returns the
    first record that carries it. *)
Lemma Get_found (i : IndexFile) (name version : string) vs ver :
  Entries i !! name = Some vs → version ≠ "" →
  findVersion version vs = Some ver → Get i name version = OK ver.
Proof.
  unfold Get. intros -> Hver Hfind. destruct vs as [|v vs]; [done|].
  case_decide as Hlen; [by apply length_zero_empty in Hlen|].
  by rewrite Hfind.
Qed.

Lemma Get_cases_witness :
  let i := catalog [("x", [record "x" "1.0.0" "AAA"; record "x" "2.0.0" "BBB"]);
                    ("e", [])] in
  Get i "y" "" = Fail ErrNoChartName
  ∧ Get i "e" "1.0.0" = Fail ErrNoChartVersion
  ∧ Get i "x" "" = OK (record "x" "1.0.0" "AAA")
  ∧ Get i "x" "3.0.0" = Fail (versionNotFound "x" "3.0.0").
Proof.
  intros i. split; [|split; [|split]].
  - apply (Get_cases i "y" ""). reflexivity.
  - apply (Get_cases i "e" "1.0.0"). reflexivity.
  - eapply (Get_cases i "x" ""); reflexivity.
  - eapply (Get_cases i "x" "3.0.0");
      [reflexivity | discriminate | discriminate |].
    repeat constructor; discriminate.
Defined.

(** ** The repository provider *)

(** C8.  Registering a handle under a name the map already holds fails with
    the duplicate-repository error and leaves the provider, and with it the
    entry under that name, as it was; under a name the map does not hold,
    the handle is inserted and returned. *)
Theorem createRepo_cases (rp : repoProvider) (cr : IChartRepo) :
  (∀ old, repos rp !! GetName cr = Some old →
     createRepo rp cr = (Fail (duplicateRepository (GetName cr)), rp)
     ∧ repos (createRepo rp cr).2 !! GetName cr = Some old)
  ∧ (repos rp !! GetName cr = None →
     createRepo rp cr = (OK cr, setRepos rp (<[GetName cr := cr]> (repos rp)))
     ∧ repos (createRepo rp cr).2 !! GetName cr = Some cr
     ∧ ∀ name, name ≠ GetName cr →
         repos (createRepo rp cr).2 !! name = repos rp !! name).
Proof.
  unfold createRepo. split.
  - intros old Hold. rewrite Hold. done.
  - intros Hnone. rewrite Hnone. simpl. split; [done|]. split.
    + apply lookup_insert_eq.
    + intros name Hne. by apply lookup_insert_ne.
Qed.

Lemma createRepo_cases_witness :
  createRepo store (handle "root" "https://other.example.com")
  = (Fail (duplicateRepository "root"), store)
  ∧ (createRepo store (handle "new" "https://new.example.com")).1
    = OK (handle "new" "https://new.example.com").
Proof.
  split.
  - eapply (createRepo_cases store (handle "root" "https://other.example.com")).
    reflexivity.
  - destruct (createRepo_cases store (handle "new" "https://new.example.com"))
      as [_ Hnew].
    destruct Hnew as [-> _]; reflexivity.
Defined.

Lemma HasPrefix_spec (s prefix : string) :
  strings.HasPrefix s prefix = true ↔ ∃ rest, s = prefix +:+ rest.
Proof.
  unfold strings.HasPrefix. rewrite bool_decide_eq_true. split.
  - intros [_ Hsub]. apply String.prefix_correct in Hsub.
    revert s Hsub. induction prefix as [|c p IH]; intros s Hp.
    + by exists s.
    + destruct s as [|d s]; simpl in Hp; [done|].
      destruct (ascii_dec c d) as [->|]; [|done].
      destruct (IH s Hp) as [rest ->]. by exists rest.
  - intros [rest ->]. split.
    + induction prefix as [|c p IH]; simpl; lia.
    + apply String.prefix_correct.
      induction prefix as [|c p IH]; [by destruct rest|].
      change (String c p +:+ rest) with (String c (p +:+ rest)). simpl.
      by destruct (ascii_dec c c).
Qed.

Lemma findStep_longestMatch URL seen found r :
  longestMatch URL seen found →
  longestMatch URL (seen ++ [r]) (findStep URL found r).
Proof.
  unfold findStep, longestMatch.
  destruct (strings.HasPrefix URL (GetURL r)) eqn:Hr.
  - destruct found as [f|].
    + intros (Hf & Hpre & Hmax). case_decide as Hlen.
      * split; [set_solver|]. split; [done|].
        intros r' [Hin| ->%list_elem_of_singleton]%elem_of_app Hr'; [|lia].
        specialize (Hmax r' Hin Hr'). lia.
      * split; [set_solver|]. split; [done|].
        intros r' [Hin| ->%list_elem_of_singleton]%elem_of_app Hr'; [|lia].
        by apply Hmax.
    + intros Hnone. split; [set_solver|]. split; [done|].
      intros r' [Hin| ->%list_elem_of_singleton]%elem_of_app Hr'; [|lia].
      specialize (Hnone r' Hin). congruence.
  - destruct found as [f|].
    + intros (Hf & Hpre & Hmax). split; [set_solver|]. split; [done|].
      intros r' [Hin| ->%list_elem_of_singleton]%elem_of_app Hr'; [|congruence].
      by apply Hmax.
    + intros Hnone r' [Hin| ->%list_elem_of_singleton]%elem_of_app; [|done].
      by apply Hnone.
Qed.

Lemma foldl_findStep_longestMatch URL l : ∀ seen found,
  longestMatch URL seen found →
  longestMatch URL (seen ++ l) (foldl (findStep URL) found l).
Proof.
  induction l as [|r l IH]; intros seen found Hinv; simpl.
  - by rewrite app_nil_r.
  - replace (seen ++ r :: l) with ((seen ++ [r]) ++ l)
      by (by rewrite <- (assoc_L app)).
    apply IH. by apply findStep_longestMatch.
Qed.

Section provider_lookup.
Context `{MapOrder}.

Lemma elem_of_mapRange {V} (m : gmap string V) (k : string) (v : V) :
  (k, v) ∈ mapRange m ↔ m !! k = Some v.
Proof. rewrite (mapRange_perm V m). apply elem_of_map_to_list. Qed.

Lemma elem_of_mapRange_values {V} (m : gmap string V) (v : V) :
  v ∈ (mapRange m).*2 ↔ ∃ k, m !! k = Some v.
Proof.
  rewrite list_elem_of_fmap. split.
  - intros ([k v'] & -> & Hin). exists k. by apply elem_of_mapRange.
  - intros [k Hk]. exists (k, v). split; [done|]. by apply elem_of_mapRange.
Qed.

Lemma findRepoByURL_longestMatch rp URL :
  longestMatch URL (mapRange (repos rp)).*2 (findRepoByURL rp URL).
Proof.
  unfold findRepoByURL.
  apply (foldl_findStep_longestMatch URL _ [] None). by intros r ?%elem_of_nil.
Qed.

(** C7.  When some cached handle's base URL is a prefix of the URL asked
    for, [GetRepoByURL] returns a cached handle and leaves the provider
    as it was; the base URL of the handle returned is a prefix of the
    URL, and no cached handle whose base URL is a prefix of the URL has a
    longer base URL. *)
Theorem GetRepoByURL_longest_prefix (rp : repoProvider) (URL : string)
    (name0 : string) (r0 : IChartRepo) :
  repos rp !! name0 = Some r0 →
  strings.HasPrefix URL (GetURL r0) = true →
  ∃ r name,
    GetRepoByURL rp URL = (OK r, rp)
    ∧ repos rp !! name = Some r
    ∧ strings.HasPrefix URL (GetURL r) = true
    ∧ ∀ name' r', repos rp !! name' = Some r' →
        strings.HasPrefix URL (GetURL r') = true →
        (String.length (GetURL r') ≤ String.length (GetURL r))%nat.
Proof.
  intros Hr0 Hpre0. unfold GetRepoByURL.
  pose proof (findRepoByURL_longestMatch rp URL) as Hfound.
  destruct (findRepoByURL rp URL) as [r|]; simpl in Hfound.
  - destruct Hfound as (Hin & Hpre & Hmax).
    apply elem_of_mapRange_values in Hin as [name Hname].
    exists r, name. repeat split; [done..|].
    intros name' r' Hr' Hpre'. apply Hmax; [|done].
    apply elem_of_mapRange_values. by exists name'.
  - assert (r0 ∈ (mapRange (repos rp)).*2) as Hin
      by (apply elem_of_mapRange_values; by exists name0).
    specialize (Hfound r0 Hin). congruence.
Qed.

End provider_lookup.

Lemma GetRepoByURL_longest_prefix_witness :
  GetRepoByURL (H := listOrder) store "https://store.example.com/charts/sub"
  = (OK (handle "charts" "https://store.example.com/charts"), store).
Proof.
  destruct (GetRepoByURL_longest_prefix (H := listOrder) store
              "https://store.example.com/charts/sub"
              "root" (handle "root" "https://store.example.com"))
    as (r & name & -> & Hin & _ & Hmax); [reflexivity | reflexivity |].
  specialize (Hmax "charts" (handle "charts" "https://store.example.com/charts")).
  apply elem_of_list_to_map_2 in Hin.
  apply list_elem_of_In in Hin. simpl in Hin.
  destruct Hin as [[= <- <-] | [[= <- <-] | []]].
  - reflexivity.
  - exfalso. specialize (Hmax eq_refl eq_refl). simpl in Hmax. lia.
Defined.

(** ** Merge *)

Lemma Entries_entriesOf i name vs :
  Entries i !! name = Some vs → entriesOf i name = vs.
Proof. unfold entriesOf. by intros ->. Qed.

Lemma entriesOf_nonempty i name :
  entriesOf i name ≠ [] → Entries i !! name = Some (entriesOf i name).
Proof. unfold entriesOf. by destruct (Entries i !! name). Qed.

(** [Has] sees a catalog through the list under the name only. *)
Lemma Has_spec i name version :
  Has i name version = true
  ↔ entriesOf i name ≠ []
    ∧ (version = "" ∨ is_Some (findVersion version (entriesOf i name))).
Proof.
  unfold Has, Get, entriesOf.
  destruct (Entries i !! name) as [[|v0 vs]|]; simpl;
    [by split; [|intros [? _]] | | by split; [|intros [? _]]].
  case_decide as Hlen.
  - apply length_zero_empty in Hlen. split; [|done]. intros _. split; [done|by left].
  - rewrite length_zero_empty in Hlen.
    destruct (decide (Version v0 = version)) as [Hv|Hv]; simpl.
    + split; [|done]. intros _. split; [done|]. right. by eexists.
    + destruct (findVersion version vs) eqn:Hf; simpl.
      * split; [|done]. intros _. split; [done|]. right. by eexists.
      * split; [done|]. intros [_ [?|[? ?]]]; done.
Qed.

Lemma Has_empty_version i name :
  Has i name "" = true ↔ entriesOf i name ≠ [].
Proof. rewrite Has_spec. split; [by intros [? _] | intros ?; split; [done | by left]]. Qed.

Lemma mergeOne_entriesOf i cv name :
  entriesOf (mergeOne i cv) name = entriesOf i name ++ appended i cv name.
Proof.
  unfold mergeOne, appended, entriesOf.
  destruct (Has i (Name cv) (Version cv)); simpl; [by rewrite app_nil_r|].
  case_decide as Hname.
  - subst name. by rewrite lookup_insert_eq.
  - rewrite lookup_insert_ne by done. by rewrite app_nil_r.
Qed.

Lemma mergeOne_is_Some i cv name :
  is_Some (Entries i !! name) → is_Some (Entries (mergeOne i cv) !! name).
Proof.
  unfold mergeOne. destruct (Has i (Name cv) (Version cv)); simpl; [done|].
  intros Hsome. destruct (decide (Name cv = name)) as [->|Hne].
  - rewrite lookup_insert_eq. by eexists.
  - by rewrite lookup_insert_ne.
Qed.

Lemma foldl_mergeOne_is_Some l : ∀ i name,
  is_Some (Entries i !! name) → is_Some (Entries (foldl mergeOne i l) !! name).
Proof.
  induction l as [|cv l IH]; intros i name Hsome; simpl; [done|].
  apply IH. by apply mergeOne_is_Some.
Qed.

(** The loop only appends: under every name the list grows by records
    taken from the visited ones and bearing that name, and a list that
    was not empty grows by records with a non-empty version only. *)
Lemma foldl_mergeOne_entriesOf l : ∀ i name,
  ∃ ext, entriesOf (foldl mergeOne i l) name = entriesOf i name ++ ext
    ∧ Forall (λ c : ChartVersion, c ∈ l ∧ Name c = name) ext
    ∧ (entriesOf i name ≠ [] → Forall (λ c : ChartVersion, Version c ≠ "") ext).
Proof.
  induction l as [|cv l IH]; intros i name; simpl.
  - exists []. by rewrite app_nil_r.
  - destruct (IH (mergeOne i cv) name) as (ext & Heq & Hfrom & Hver).
    rewrite mergeOne_entriesOf in Heq, Hver.
    exists (appended i cv name ++ ext). split; [by rewrite (assoc_L app)|].
    assert (Forall (λ c : ChartVersion, c ∈ cv :: l ∧ Name c = name)
              (appended i cv name)) as Hcv.
    { unfold appended. destruct (Has i (Name cv) (Version cv)); [constructor|].
      case_decide; [|constructor]. repeat constructor; done. }
    split.
    + apply Forall_app. split; [done|].
      eapply Forall_impl; [exact Hfrom|]. intros c [Hc ?]. split; [by right|done].
    + intros Hne. apply Forall_app. split.
      * unfold appended. destruct (Has i (Name cv) (Version cv)) eqn:Hhas;
          [constructor|].
        case_decide as Hname; [|constructor]. subst name.
        repeat constructor. intros Hempty. rewrite Hempty in Hhas.
        apply Has_empty_version in Hne. congruence.
      * apply Hver. intros [? _]%app_eq_nil. done.
Qed.

(** A visited record with a non-empty version is matched, after the loop,
    by some record under its name. *)
Lemma foldl_mergeOne_finds l : ∀ i (cv : ChartVersion),
  cv ∈ l → Version cv ≠ "" →
  is_Some (findVersion (Version cv) (entriesOf (foldl mergeOne i l) (Name cv))).
Proof.
  induction l as [|x l IH]; intros i cv Hin Hver; [by apply elem_of_nil in Hin|].
  simpl. apply elem_of_cons in Hin as [->|Hin]; [|by apply IH].
  destruct (foldl_mergeOne_entriesOf l (mergeOne i x) (Name x))
    as (ext & -> & _ & _).
  assert (is_Some (findVersion (Version x) (entriesOf (mergeOne i x) (Name x))))
    as [c Hc].
  { rewrite mergeOne_entriesOf. unfold appended.
    destruct (Has i (Name x) (Version x)) eqn:Hhas.
    - apply Has_spec in Hhas as [_ [?|Hsome]]; [done|]. by rewrite app_nil_r.
    - rewrite decide_True by done.
      destruct (findVersion (Version x) (entriesOf i (Name x))) as [c|] eqn:Hf.
      + exists c. by apply findVersion_app_l.
      + rewrite findVersion_app_r by done. simpl. rewrite decide_True by done.
        by eexists. }
  exists c. by apply findVersion_app_l.
Qed.

Lemma mergeEntries_flat visited : ∀ i,
  mergeEntries visited i = foldl mergeOne i (mjoin visited.*2).
Proof.
  unfold mergeEntries.
  induction visited as [|[k cvs] visited IH]; intros i; simpl; [done|].
  by rewrite foldl_app, IH.
Qed.

Lemma Get_entriesOf i i' name :
  Entries i' !! name = Some (entriesOf i' name) →
  ∀ version cv ext, entriesOf i' name = entriesOf i name ++ ext →
  Get i name version = OK cv → Get i' name version = OK cv.
Proof.
  intros Hsome version cv ext Hext. unfold Get at 2. rewrite Hsome, Hext.
  unfold Get, entriesOf. destruct (Entries i !! name) as [[|v0 vs]|]; simpl; [done| |done].
  case_decide; [done|]. case_decide; [done|].
  destruct (findVersion version vs) as [c|] eqn:Hf; [|done].
  by rewrite (findVersion_app_l _ _ _ _ Hf).
Qed.

Section merge.
Context `{MapOrder}.

Lemma elem_of_visited (f : IndexFile) (cv : ChartVersion) :
  cv ∈ mjoin (mapRange (Entries f)).*2 ↔ holds f cv.
Proof.
  unfold holds. rewrite list_elem_of_join. split.
  - intros (cvs & Hcv & [k Hk]%elem_of_mapRange_values). by exists k, cvs.
  - intros (k & cvs & Hk & Hcv). exists cvs. split; [done|].
    apply elem_of_mapRange_values. by exists k.
Qed.

(** The receiver's lists are prefixes of the merged lists. *)
Lemma Merge_extends (i f : IndexFile) name vs :
  Entries i !! name = Some vs →
  ∃ ext, Entries (Merge i f) !! name = Some (vs ++ ext)
    ∧ Forall (λ c : ChartVersion, holds f c ∧ Name c = name) ext
    ∧ (vs ≠ [] → Forall (λ c : ChartVersion, Version c ≠ "") ext).
Proof.
  intros Hvs. unfold Merge. rewrite mergeEntries_flat.
  destruct (foldl_mergeOne_entriesOf (mjoin (mapRange (Entries f)).*2) i name)
    as (ext & Heq & Hfrom & Hver).
  rewrite (Entries_entriesOf _ _ _ Hvs) in Heq, Hver.
  exists ext. split; [|split; [|done]].
  - destruct (foldl_mergeOne_is_Some (mjoin (mapRange (Entries f)).*2) i name)
      as [vs' Hvs']; [by eexists|].
    rewrite Hvs'. f_equal. by rewrite <- (Entries_entriesOf _ _ _ Hvs').
  - eapply Forall_impl; [exact Hfrom|]. intros c [Hc ?].
    split; [by apply elem_of_visited|done].
Qed.

End merge.

Section merge_claims.
Context `{MapOrder}.

(** X29.  [Merge] only appends to the receiver's lists, so every record
    of the receiver stays where it was and every lookup that succeeded on
    the receiver returns the same record, digest included, after the
    merge.  For every record of [other] with a non-empty version whose
    (name, version) pair [Has] does not find in the receiver, the merged
    list under that name is the receiver's list (nil if the name was
    absent) followed by appended records of [other], one of which carries
    that name and version and is what [Get] returns for the pair. *)
Theorem Merge_nondestructive (i f : IndexFile) :
  (∀ name vs, Entries i !! name = Some vs →
     ∃ ext, Entries (Merge i f) !! name = Some (vs ++ ext))
  ∧ (∀ name version cv, Get i name version = OK cv →
       Get (Merge i f) name version = OK cv)
  ∧ (∀ cv : ChartVersion, holds f cv → Version cv ≠ "" →
       Has i (Name cv) (Version cv) = false →
       ∃ (cv' : ChartVersion) ext,
         Entries (Merge i f) !! Name cv = Some (entriesOf i (Name cv) ++ ext)
         ∧ cv' ∈ ext ∧ holds f cv'
         ∧ Name cv' = Name cv ∧ Version cv' = Version cv
         ∧ Get (Merge i f) (Name cv) (Version cv) = OK cv').
Proof.
  split; [|split].
  - intros name vs Hvs.
    destruct (Merge_extends i f name vs Hvs) as (ext & Hext & _). by exists ext.
  - intros name version cv Hget.
    assert (∃ vs, Entries i !! name = Some vs) as [vs Hvs].
    { unfold Get in Hget. destruct (Entries i !! name); [by eexists|done]. }
    destruct (Merge_extends i f name vs Hvs) as (ext & Hext & _).
    eapply (Get_entriesOf i); [| |exact Hget].
    + by rewrite (Entries_entriesOf _ _ _ Hext).
    + by rewrite (Entries_entriesOf _ _ _ Hext), (Entries_entriesOf _ _ _ Hvs).
  - intros cv Hcv Hver Hhas. apply elem_of_visited in Hcv.
    set (l := mjoin (mapRange (Entries f)).*2) in *.
    pose proof (foldl_mergeOne_finds l i cv Hcv Hver) as [cv' Hfind].
    destruct (foldl_mergeOne_entriesOf l i (Name cv)) as (ext & Heq & Hfrom & _).
    assert (findVersion (Version cv) (entriesOf i (Name cv)) = None) as Hnone.
    { destruct (findVersion (Version cv) (entriesOf i (Name cv))) as [c|] eqn:Hc;
        [|done].
      assert (Has i (Name cv) (Version cv) = true); [|congruence].
      apply Has_spec. split; [|right; by eexists].
      intros Hnil. by rewrite Hnil in Hc. }
    rewrite Heq, (findVersion_app_r _ _ _ Hnone) in Hfind.
    destruct (findVersion_Some _ _ _ Hfind) as [Hin Hv].
    destruct (proj1 (Forall_forall _ _) Hfrom cv' Hin) as [Hl Hname].
    assert (Entries (Merge i f) !! Name cv = Some (entriesOf i (Name cv) ++ ext))
      as Hlookup.
    { unfold Merge. rewrite mergeEntries_flat. fold l. rewrite <- Heq.
      apply entriesOf_nonempty. rewrite Heq. intros [_ ->]%app_eq_nil.
      by apply elem_of_nil in Hin. }
    exists cv', ext. repeat split; [done | done | by apply elem_of_visited | done..|].
    eapply Get_found; [exact Hlookup | done |].
    by rewrite (findVersion_app_r _ _ _ Hnone).
Qed.

(** C10.  [Has(name, "")] is true as soon as the name maps to a list
    that is not empty, whatever versions the list holds; and so, under a
    name for which the receiver holds at least one record, every record
    [Merge] copies from [other] has a non-empty version. *)
Theorem Merge_never_copies_empty_version :
  (∀ (i : IndexFile) name vs,
     Entries i !! name = Some vs → vs ≠ [] → Has i name "" = true)
  ∧ (∀ (i f : IndexFile) name vs,
       Entries i !! name = Some vs → vs ≠ [] →
       ∃ ext, Entries (Merge i f) !! name = Some (vs ++ ext)
         ∧ Forall (λ cv : ChartVersion,
                     holds f cv ∧ Name cv = name ∧ Version cv ≠ "") ext).
Proof.
  split.
  - intros i name vs Hvs Hne. apply Has_empty_version.
    by rewrite (Entries_entriesOf _ _ _ Hvs).
  - intros i f name vs Hvs Hne.
    destruct (Merge_extends i f name vs Hvs) as (ext & Hext & Hfrom & Hver).
    exists ext. split; [done|]. specialize (Hver Hne).
    rewrite Forall_forall in Hfrom, Hver. apply Forall_forall.
    intros cv Hcv. destruct (Hfrom cv Hcv). split; [done|]. split; [done|].
    by apply Hver.
Qed.

Lemma mergeOne_present (c : IndexFile) (cv : ChartVersion) :
  Has c (Name cv) (Version cv) = true → mergeOne c cv = c.
Proof. unfold mergeOne. by intros ->. Qed.

Lemma wellKeyed_Has (c : IndexFile) (cv : ChartVersion) :
  wellKeyed c → holds c cv → Has c (Name cv) (Version cv) = true.
Proof.
  intros Hkeyed (k & cvs & Hk & Hcv).
  pose proof (Hkeyed k cvs Hk) as Hall. rewrite Forall_forall in Hall.
  rewrite (Hall cv Hcv). apply Has_spec.
  rewrite (Entries_entriesOf _ _ _ Hk). split.
  - intros ->. by apply elem_of_nil in Hcv.
  - right. destruct (findVersion (Version cv) cvs) eqn:Hf; [by eexists|].
    apply findVersion_None in Hf. rewrite Forall_forall in Hf.
    by destruct (Hf cv Hcv).
Qed.

(** C9, as amended.  For a catalog in which every record is filed under
    its own name, [Merge(c, c)] leaves [c] unchanged. *)
Theorem Merge_idempotent (c : IndexFile) :
  wellKeyed c → Merge c c = c.
Proof.
  intros Hkeyed. unfold Merge. rewrite mergeEntries_flat.
  assert (∀ l : list ChartVersion,
            Forall (holds c) l → foldl mergeOne c l = c) as Hfold.
  { induction l as [|cv l IH]; intros Hall; simpl; [done|].
    inversion Hall; subst.
    rewrite mergeOne_present by (by apply wellKeyed_Has). by apply IH. }
  apply Hfold. apply Forall_forall. intros cv. by apply elem_of_visited.
Qed.

End merge_claims.

Lemma Merge_nondestructive_witness :
  Get (Merge (H := listOrder) c1 c2) "x" "1.0.0" = OK (record "x" "1.0.0" "AAA")
  ∧ ∃ cv' : ChartVersion,
      Get (Merge (H := listOrder) c1 c2) "x" "2.0.0" = OK cv'
      ∧ Name cv' = "x" ∧ Version cv' = "2.0.0".
Proof.
  destruct (Merge_nondestructive (H := listOrder) c1 c2) as (_ & Hkeep & Hcopy).
  split.
  - apply Hkeep. reflexivity.
  - destruct (Hcopy (record "x" "2.0.0" "CCC"))
      as (cv' & ext & _ & _ & _ & Hname & Hver & Hget).
    + exists "x", [record "x" "1.0.0" "BBB"; record "x" "2.0.0" "CCC"].
      split; [reflexivity|]. right. left.
    + discriminate.
    + reflexivity.
    + exists cv'. split; [exact Hget|]. split; [exact Hname | exact Hver].
Defined.

(** C1.  [Merge] at an input where it does not add an absent pair.  The
    receiver is empty; [other] holds, under the one name [x], a record of
    version [1.0.0] followed by a record of empty version.  [Has] finds
    neither pair in the receiver.  Whatever the order of the visit,
    [Merge] copies the first record and leaves the second out: once the
    list under [x] is not empty, [Has] answers [true] for the pair
    [(x, "")], through the guard of [Get] on the empty version, though no
    record of the merged catalog has the empty version. *)
Theorem Merge_skips_empty_version `{O : MapOrder} :
  holds unversioned (record "x" "" "BBB")
  ∧ Has (catalog []) "x" "1.0.0" = false
  ∧ Has (catalog []) "x" "" = false
  ∧ Entries (Merge (catalog []) unversioned) !! "x"
    = Some [record "x" "1.0.0" "AAA"]
  ∧ (record "x" "" "BBB" ∉ entriesOf (Merge (catalog []) unversioned) "x")
  ∧ Has (Merge (catalog []) unversioned) "x" "" = true.
Proof.
  assert (mapRange (Entries unversioned)
          = [("x", [record "x" "1.0.0" "AAA"; record "x" "" "BBB"])]) as Hvisit.
  { apply Permutation_singleton_r. rewrite (mapRange_perm _ (Entries unversioned)).
    simpl. by rewrite insert_empty, map_to_list_singleton. }
  unfold Merge. rewrite Hvisit.
  split; [|split; [|split; [|split; [|split]]]].
  - exists "x", [record "x" "1.0.0" "AAA"; record "x" "" "BBB"].
    split; [reflexivity|]. right. left.
  - reflexivity.
  - reflexivity.
  - reflexivity.
  - intros Hin. apply list_elem_of_In in Hin. vm_compute in Hin.
    destruct Hin as [Heq|[]]. discriminate Heq.
  - reflexivity.
Qed.

Lemma Merge_never_copies_empty_version_witness :
  Has c1 "x" "" = true
  ∧ ∃ ext, Entries (Merge (H := listOrder) c1 unversioned) !! "x"
           = Some ([record "x" "1.0.0" "AAA"] ++ ext)
      ∧ Forall (λ cv : ChartVersion, Version cv ≠ "") ext.
Proof.
  destruct (Merge_never_copies_empty_version (H := listOrder)) as [Hhas Hmerge].
  split.
  - apply (Hhas c1 "x" [record "x" "1.0.0" "AAA"]); [reflexivity | discriminate].
  - destruct (Hmerge c1 unversioned "x" [record "x" "1.0.0" "AAA"])
      as (ext & Hext & Hall); [reflexivity | discriminate |].
    exists ext. split; [exact Hext|].
    eapply Forall_impl; [exact Hall|]. intros cv (_ & _ & Hver). exact Hver.
Defined.

Lemma Merge_idempotent_witness : Merge (H := listOrder) c2 c2 = c2.
Proof.
  apply (Merge_idempotent (H := listOrder) c2).
  apply (bool_decide_unpack _). vm_compute. exact I.
Defined.

(** C9, as stated, fails on a catalog with a record filed under another
    name than its own: the merge files the record again under its own
    name.  Visiting, as Go may, the name added during the loop changes
    nothing to that. *)
Lemma Merge_rekeys :
  Merge (H := listOrder) misfiled misfiled ≠ misfiled
  ∧ Entries misfiled !! "b" = None
  ∧ Entries (Merge (H := listOrder) misfiled misfiled) !! "b"
    = Some [record "b" "1.0.0" "AAA"]
  ∧ mergeEntries [("a", [record "b" "1.0.0" "AAA"]); ("b", [record "b" "1.0.0" "AAA"])]
      misfiled
    = Merge (H := listOrder) misfiled misfiled.
Proof.
  split; [|split; [|split]].
  - intros Heq. apply (f_equal (λ c, Entries c !! "b")) in Heq.
    vm_compute in Heq. discriminate Heq.
  - reflexivity.
  - reflexivity.
  - reflexivity.
Qed.

(** ** The legacy loader *)

Lemma app_String (c : ascii) (s t : string) : String c s +:+ t = String c (s +:+ t).
Proof. reflexivity. Qed.

Lemma without_String sep c s : without sep (String c s) ↔ c ≠ sep ∧ without sep s.
Proof.
  unfold without. simpl. rewrite not_elem_of_cons.
  split; intros [? ?]; split; done.
Qed.

Lemma Split_without s sep : without sep s → strings.Split s sep = [s].
Proof.
  induction s as [|c s IH]; simpl; [done|].
  intros [Hc Hs]%without_String. rewrite decide_False by done. by rewrite IH.
Qed.

Lemma Split_first a rest sep :
  without sep a →
  strings.Split (a +:+ String sep rest) sep = a :: strings.Split rest sep.
Proof.
  induction a as [|c a IH]; intros Ha.
  - change ("" +:+ String sep rest) with (String sep rest). simpl.
    by rewrite decide_True.
  - apply without_String in Ha as [Hc Ha]. rewrite app_String. simpl.
    rewrite decide_False by done. by rewrite IH.
Qed.

Lemma length_app_string (s t : string) :
  String.length (s +:+ t) = String.length s + String.length t.
Proof. induction s as [|c s IH]; [done|]. rewrite app_String. simpl. by rewrite IH. Qed.

Lemma substring_app_l (s t : string) :
  String.substring 0 (String.length s) (s +:+ t) = s.
Proof.
  induction s as [|c s IH]; [by destruct t|].
  rewrite app_String. simpl. by rewrite IH.
Qed.

Lemma substring_app_r (s t : string) :
  String.substring (String.length s) (String.length t) (s +:+ t) = t.
Proof.
  induction s as [|c s IH]; [|by rewrite app_String].
  change ("" +:+ t) with t. simpl.
  induction t as [|d t IHt]; [done|]. simpl. by rewrite IHt.
Qed.

(** [TrimSuffix] takes the suffix off a string that ends with it. *)
Lemma TrimSuffix_app (s suffix : string) :
  strings.TrimSuffix (s +:+ suffix) suffix = s.
Proof.
  unfold strings.TrimSuffix, strings.HasSuffix.
  rewrite length_app_string.
  replace (String.length s + String.length suffix - String.length suffix)
    with (String.length s) by lia.
  rewrite bool_decide_eq_true_2.
  - apply substring_app_l.
  - split; [lia | apply substring_app_r].
Qed.

(** C4, as amended.  For a legacy entry whose descriptor is missing or has
    an empty name, the name is the part of the key before the first dash,
    and the version is the part between the first dash and the second
    (all that follows the first dash when there is no second), less a
    trailing [.tgz]; a key without a dash gives itself as the name and the
    empty version. *)
Theorem legacyChartfile_derived (n : string) (item : unversionedEntry) :
  (Chartfile item = None ∨ ∃ md, Chartfile item = Some md ∧ Name md = "") →
  (without "-" n →
     legacyChartfile n item = {| Name := n; Version := ""; Fields := [] |})
  ∧ (∀ a b, without "-" a → without "-" b → n = a +:+ "-" +:+ b →
       legacyChartfile n item
       = {| Name := a; Version := strings.TrimSuffix b ".tgz"; Fields := [] |})
  ∧ (∀ a b more, without "-" a → without "-" b →
       n = a +:+ "-" +:+ b +:+ "-" +:+ more →
       legacyChartfile n item
       = {| Name := a; Version := strings.TrimSuffix b ".tgz"; Fields := [] |}).
Proof.
  intros Hitem.
  assert (∀ parts, strings.Split n "-" = parts →
    legacyChartfile n item
    = {| Name := default "" (parts !! 0);
         Version := if bool_decide (1 < length parts)
                    then strings.TrimSuffix (default "" (parts !! 1)) ".tgz"
                    else "";
         Fields := [] |}) as Hparts.
  { intros parts <-. unfold legacyChartfile.
    destruct Hitem as [-> | (md & -> & Hname)]; [done|].
    by rewrite decide_True. }
  split; [|split].
  - intros Hn. by rewrite (Hparts _ (Split_without n "-" Hn)).
  - intros a b Ha Hb ->. change ("-" +:+ b) with (String "-" b) in *.
    erewrite Hparts; [|by rewrite (Split_first a b "-" Ha), (Split_without b "-" Hb)].
    done.
  - intros a b more Ha Hb ->.
    change ("-" +:+ b +:+ "-" +:+ more)
      with (String "-" (b +:+ String "-" more)) in *.
    erewrite Hparts;
      [|by rewrite (Split_first a _ "-" Ha), (Split_first b more "-" Hb)].
    done.
Qed.

Lemma legacyChartfile_derived_witness :
  legacyChartfile "foo-1.2.3" (bare "http://example.com/foo-1.2.3.tgz")
  = {| Name := "foo"; Version := "1.2.3"; Fields := [] |}.
Proof.
  destruct (legacyChartfile_derived "foo-1.2.3" (bare "http://example.com/foo-1.2.3.tgz"))
    as (_ & Hone & _); [by left|].
  apply (Hone "foo" "1.2.3"); [| |reflexivity].
  - apply (bool_decide_unpack _). vm_compute. exact I.
  - apply (bool_decide_unpack _). vm_compute. exact I.
Defined.

(** C4, as stated, fails on a key with a second dash: the version stops
    there, where the claim takes all that follows the first dash. *)
Lemma legacy_version_stops_at_second_dash :
  Version (legacyChartfile "foo-1.2.3-beta.tgz" (bare "")) = "1.2.3"
  ∧ statedLegacyVersion "foo-1.2.3-beta.tgz" = "1.2.3-beta"
  ∧ Version (legacyChartfile "foo-1.2.3-beta.tgz" (bare ""))
    ≠ statedLegacyVersion "foo-1.2.3-beta.tgz".
Proof. split; [reflexivity|]. split; [reflexivity|]. discriminate. Qed.

Example loadUnversionedIndex_foo :
  loadUnversionedIndex (H := sampleDecoder) (H0 := listOrder) (H1 := plainPaths)
    (ticks 7%Z) "foo-1.2.3: {url: http://example.com/foo-1.2.3.tgz}"
  = OK (setEntry "foo"
          [{| Metadata := {| Name := "foo"; Version := "1.2.3"; Fields := [] |};
              URLs := ["http://example.com/foo-1.2.3.tgz"]; Created := 8%Z;
              Removed := false; Digest := "" |}]
          (NewIndexFile 7%Z)).
Proof. reflexivity. Qed.

Section loading.
Context `{Decoder} `{MapOrder} `{PathLib}.

Lemma loadUnversionedIndex_NoAPIVersion clock data :
  loadUnversionedIndex clock data = Fail ErrNoAPIVersion
  ↔ ∃ json, yaml_YAMLToJSON data = inr json ∧ json_Unmarshal json = inr ∅.
Proof.
  unfold loadUnversionedIndex. split.
  - destruct (yaml_YAMLToJSON data) as [?|json]; [done|].
    destruct (json_Unmarshal json) as [?|m] eqn:Hm; [done|].
    case_decide as Hsize; [|done].
    intros _. exists json. split; [done|].
    rewrite Hm. f_equal. by apply map_size_empty_iff.
  - intros (json & -> & ->). by rewrite decide_True by apply map_size_empty.
Qed.

(** C6.  A document that parses with a non-empty [apiVersion] is
    returned as parsed.  With [apiVersion] absent or empty the result is
    that of the legacy parse.  [LoadIndex] fails with [ErrNoAPIVersion]
    exactly when the document parses without an [apiVersion] and its
    legacy mapping decodes to no entry at all. *)
Theorem LoadIndex_cases (clock : Clock) (data : string) :
  (∀ i, yaml_Unmarshal data = inr i → APIVersion i ≠ "" →
     LoadIndex clock data = OK i)
  ∧ (∀ i, yaml_Unmarshal data = inr i → APIVersion i = "" →
       LoadIndex clock data = loadUnversionedIndex clock data)
  ∧ (LoadIndex clock data = Fail ErrNoAPIVersion
     ↔ ∃ i json, yaml_Unmarshal data = inr i ∧ APIVersion i = ""
                 ∧ yaml_YAMLToJSON data = inr json
                 ∧ json_Unmarshal json = inr ∅).
Proof.
  unfold LoadIndex. split; [|split].
  - intros i -> Hv. by rewrite decide_False.
  - intros i -> Hv. by rewrite decide_True.
  - split.
    + destruct (yaml_Unmarshal data) as [?|i]; [done|].
      case_decide as Hv; [|done].
      intros (json & Hjson & Hmap)%loadUnversionedIndex_NoAPIVersion.
      by exists i, json.
    + intros (i & json & -> & Hv & Hjson & Hmap).
      rewrite decide_True by done.
      apply loadUnversionedIndex_NoAPIVersion. by exists json.
Qed.

End loading.

Lemma LoadIndex_cases_witness :
  LoadIndex (H := sampleDecoder) (H0 := listOrder) (H1 := plainPaths) (ticks 7%Z)
    "apiVersion: v1" = OK (catalog [])
  ∧ LoadIndex (H := sampleDecoder) (H0 := listOrder) (H1 := plainPaths) (ticks 7%Z)
      "{}" = Fail ErrNoAPIVersion.
Proof.
  split.
  - apply (LoadIndex_cases (H := sampleDecoder) (H0 := listOrder) (H1 := plainPaths)
             (ticks 7%Z) "apiVersion: v1"); [reflexivity | discriminate].
  - apply (LoadIndex_cases (H := sampleDecoder) (H0 := listOrder) (H1 := plainPaths)
             (ticks 7%Z) "{}").
    eexists _, "{}". repeat split; reflexivity.
Defined.

(** ** The reference semantic-version library obeys the laws *)

Section lexicographic.
Context {A B : Type} (ca : A → A → comparison) (cb : B → B → comparison).
Hypothesis ca_antisym : ∀ x y, ca y x = CompOpp (ca x y).
Hypothesis ca_trans : ∀ x y z, ca x y ≠ Gt → ca y z ≠ Gt → ca x z ≠ Gt.
Hypothesis cb_antisym : ∀ x y, cb y x = CompOpp (cb x y).
Hypothesis cb_trans : ∀ x y z, cb x y ≠ Gt → cb y z ≠ Gt → cb x z ≠ Gt.

Lemma lexCompare_antisym p q :
  semver_ref.lexCompare ca cb q p = CompOpp (semver_ref.lexCompare ca cb p q).
Proof.
  unfold semver_ref.lexCompare. rewrite (ca_antisym p.1 q.1), (cb_antisym p.2 q.2).
  by destruct (ca p.1 q.1).
Qed.

Lemma lexCompare_trans p q r :
  semver_ref.lexCompare ca cb p q ≠ Gt →
  semver_ref.lexCompare ca cb q r ≠ Gt →
  semver_ref.lexCompare ca cb p r ≠ Gt.
Proof.
  unfold semver_ref.lexCompare.
  destruct p as [a1 b1], q as [a2 b2], r as [a3 b3]; simpl.
  pose proof (ca_trans a1 a2 a3) as T123.
  pose proof (ca_trans a2 a3 a1) as T231.
  pose proof (ca_trans a3 a1 a2) as T312.
  pose proof (cb_trans b1 b2 b3) as Tb.
  rewrite (ca_antisym a1 a3) in T231, T312.
  rewrite (ca_antisym a1 a2) in T231.
  rewrite (ca_antisym a2 a3) in T312.
  destruct (ca a1 a2), (ca a2 a3), (ca a1 a3); simpl in *;
    intros ? ?; try done; try (by apply Tb); try (by apply T123);
    try (by exfalso; apply T231); try (by exfalso; apply T312).
Qed.

End lexicographic.

Lemma N_compare_antisym' (x y : N) : (y ?= x)%N = CompOpp (x ?= y)%N.
Proof. apply N.compare_antisym. Qed.

Lemma N_compare_trans (x y z : N) :
  (x ?= y)%N ≠ Gt → (y ?= z)%N ≠ Gt → (x ?= z)%N ≠ Gt.
Proof. apply N.le_trans. Qed.

Lemma comparePre_antisym p q :
  semver_ref.comparePre q p = CompOpp (semver_ref.comparePre p q).
Proof.
  destruct p, q; try done. unfold semver_ref.comparePre.
  apply String.compare_antisym.
Qed.

Lemma String_compare_trans (x y z : string) :
  String.compare x y ≠ Gt → String.compare y z ≠ Gt → String.compare x z ≠ Gt.
Proof.
  assert (∀ s1 s2, String.compare s1 s2 ≠ Gt ↔ String.le s1 s2) as Hle.
  { intros s1 s2. unfold String.le, String.leb.
    destruct (String.compare s1 s2); simpl; split; done. }
  rewrite !Hle. apply transitivity.
Qed.

Lemma comparePre_trans p q r :
  semver_ref.comparePre p q ≠ Gt → semver_ref.comparePre q r ≠ Gt →
  semver_ref.comparePre p r ≠ Gt.
Proof.
  destruct p, q, r; try done. unfold semver_ref.comparePre.
  apply String_compare_trans.
Qed.

Lemma semver_ref_laws : semver.Laws semver_ref.lib.
Proof.
  split; simpl.
  - intros v o. change (semver_ref.compare o v)
      with (semver_ref.lexCompare N.compare (semver_ref.lexCompare N.compare
              (semver_ref.lexCompare N.compare semver_ref.comparePre))
              (semver_ref.key o) (semver_ref.key v)).
    rewrite lexCompare_antisym; [done|..];
      eauto using N_compare_antisym', lexCompare_antisym, comparePre_antisym.
  - intros a b c. change (semver_ref.compare ?x ?y)
      with (semver_ref.lexCompare N.compare (semver_ref.lexCompare N.compare
              (semver_ref.lexCompare N.compare semver_ref.comparePre))
              (semver_ref.key x) (semver_ref.key y)).
    apply lexCompare_trans;
      eauto 10 using N_compare_antisym', N_compare_trans, lexCompare_antisym,
        lexCompare_trans, comparePre_antisym, comparePre_trans.
Qed.

(** ** The ordering of versions *)

Section ordering.
Context `{L : semver.Lib} {HL : semver.Laws L}.

Lemma Compare_refl (v : semver.Version) : semver.Compare v v = Eq.
Proof.
  pose proof (semver.Compare_antisym v v) as Hv.
  by destruct (semver.Compare v v).
Qed.

Lemma Compare_ge_trans (a b c : semver.Version) :
  semver.Compare a b ≠ Lt → semver.Compare b c ≠ Lt → semver.Compare a c ≠ Lt.
Proof.
  intros Hab Hbc.
  pose proof (semver.Compare_trans c b a) as Htrans.
  rewrite (semver.Compare_antisym b c), (semver.Compare_antisym a b),
    (semver.Compare_antisym a c) in Htrans.
  destruct (semver.Compare a b), (semver.Compare b c), (semver.Compare a c);
    simpl in *; try done; by exfalso; apply Htrans.
Qed.

(** C5, as amended.  For two version strings that both parse, the
    ordering of (a, b) is the negation of the ordering of (b, a) when
    the two versions differ in precedence; when they are equal in
    precedence, as a version is to itself, both orderings are false. *)
Theorem VersionOrdering_wellformed (a b : string) (va vb : semver.Version) :
  semver.NewVersion a = inr va → semver.NewVersion b = inr vb →
  (semver.Compare va vb ≠ Eq →
     VersionOrdering a b = negb (VersionOrdering b a))
  ∧ (semver.Compare va vb = Eq →
       VersionOrdering a b = false ∧ VersionOrdering b a = false).
Proof.
  intros Ha Hb. unfold VersionOrdering, semver.LessThan. rewrite Ha, Hb.
  rewrite (semver.Compare_antisym va vb).
  destruct (semver.Compare va vb); simpl; split; done.
Qed.

End ordering.

Lemma VersionOrdering_wellformed_witness :
  VersionOrdering (H := semver_ref.lib) "1.0.0" "2.0.0-rc.1"
  = negb (VersionOrdering (H := semver_ref.lib) "2.0.0-rc.1" "1.0.0").
Proof.
  eapply (VersionOrdering_wellformed (L := semver_ref.lib) (HL := semver_ref_laws)
            "1.0.0" "2.0.0-rc.1"); [reflexivity | reflexivity | discriminate].
Defined.

(** C5, as stated, fails on two versions of equal precedence: a version
    is not below itself, nor is [1.0.0] below [v1.0], and the ordering is
    false both ways where its negation is true. *)
Lemma VersionOrdering_equal_precedence :
  wellFormed (H := semver_ref.lib) "1.0.0"
  ∧ wellFormed (H := semver_ref.lib) "v1.0"
  ∧ VersionOrdering (H := semver_ref.lib) "1.0.0" "1.0.0"
    ≠ negb (VersionOrdering (H := semver_ref.lib) "1.0.0" "1.0.0")
  ∧ VersionOrdering (H := semver_ref.lib) "1.0.0" "v1.0"
    ≠ negb (VersionOrdering (H := semver_ref.lib) "v1.0" "1.0.0").
Proof.
  split; [by eexists|]. split; [by eexists|]. split; discriminate.
Qed.

(** ** Sorting *)

(** The reference instance of [sort.swaps] makes the [Swap] calls of the
    insertion sort. *)
Lemma sinkSwaps_sink {D} (I : sort.Interface D) (a j : nat) : ∀ data : D,
  sort.swapAll I data (sinkSwaps I a j data) = sort.sink I a j data.
Proof.
  induction j as [|j IH]; intros data; simpl; [done|].
  destruct (bool_decide (a < S j) && sort.Less I data (S j) j); [|done].
  apply IH.
Qed.

Lemma insertionSwaps_sink {D} (I : sort.Interface D) (a : nat) (turns : list nat) :
  ∀ data : D,
  sort.swapAll I data (insertionSwaps I a turns data)
  = foldl (λ d i, sort.sink I a i d) data turns.
Proof.
  induction turns as [|i rest IH]; intros data; simpl; [done|].
  unfold sort.swapAll at 1. rewrite foldl_app.
  change (sort.swapAll I (sort.swapAll I data (sinkSwaps I a i data))
            (insertionSwaps I a rest (sort.sink I a i data))
          = foldl (λ d i, sort.sink I a i d) (sort.sink I a i data) rest).
  rewrite sinkSwaps_sink. apply IH.
Qed.

Lemma insertionLib_insertionSort {D} (I : sort.Interface D) (data : D) :
  sort.swapAll I data (sort.swaps (Lib := insertionLib) I data)
  = sort.insertionSort I data 0 (sort.Len I data).
Proof. apply insertionSwaps_sink. Qed.

(** [Swap] rearranges the list, whatever the indices. *)
Lemma Swap_perm (c : ChartVersions) (i j : nat) : Swap c i j ≡ₚ c.
Proof.
  unfold Swap.
  destruct (c !! i) as [x|] eqn:Hx; [|done].
  destruct (c !! j) as [y|] eqn:Hy; [|done].
  pose proof (lookup_lt_Some _ _ _ Hx) as Hi.
  pose proof (lookup_lt_Some _ _ _ Hy) as Hj.
  apply Permutation_inj. split; [by rewrite !length_insert|].
  exists (λ k, if decide (k = j) then i else if decide (k = i) then j else k).
  split.
  - intros k1 k2. repeat case_decide; congruence.
  - intros k. destruct (decide (k = j)) as [->|Hkj].
    + by rewrite list_lookup_insert_eq by (by rewrite length_insert).
    + rewrite list_lookup_insert_ne by done.
      destruct (decide (k = i)) as [->|Hki].
      * by rewrite list_lookup_insert_eq.
      * by rewrite list_lookup_insert_ne.
Qed.

Lemma swapAll_perm `{semver.Lib} (calls : list (nat * nat)) : ∀ c : ChartVersions,
  sort.swapAll (sort.Reverse ChartVersions_sort) c calls ≡ₚ c.
Proof.
  induction calls as [|[i j] rest IH]; intros c; simpl; [done|].
  unfold sort.swapAll in *. simpl. rewrite IH. apply Swap_perm.
Qed.

Section insertion_sort.
Context {A : Type} (I : sort.Interface (list A)) (lt : A → A → bool).
Hypothesis I_Len : ∀ l, sort.Len I l = length l.
Hypothesis I_Less : ∀ l i j x y,
  l !! i = Some x → l !! j = Some y → sort.Less I l i j = lt x y.
Hypothesis I_Swap : ∀ l i j x y,
  l !! i = Some x → l !! j = Some y →
  sort.Swap I l i j = <[j := x]> (<[i := y]> l).

Lemma length_bubble x before : length (bubble lt x before) = S (length before).
Proof.
  induction before as [|y r IH]; simpl; [done|].
  destruct (lt x y); simpl; by rewrite ?IH.
Qed.

Lemma bubble_perm x before : bubble lt x before ≡ₚ x :: before.
Proof.
  induction before as [|y r IH]; simpl; [done|].
  destruct (lt x y); [|done]. rewrite IH. apply Permutation_swap.
Qed.

(** The inner loop, started at the element that follows [before]. *)
Lemma sink_bubble before : ∀ x after,
  sort.sink I 0 (length before) (rev before ++ x :: after)
  = rev (bubble lt x before) ++ after.
Proof.
  induction before as [|y r IH]; intros x after; [done|].
  assert (rev (y :: r) ++ x :: after = rev r ++ y :: x :: after) as Hdata
    by (simpl; by rewrite <- (assoc_L app)).
  assert (length (rev r) = length r) as Hlen by apply length_rev.
  assert ((rev r ++ y :: x :: after) !! S (length r) = Some x) as Hx.
  { rewrite lookup_app_r by lia. by replace (S (length r) - length (rev r)) with 1 by lia. }
  assert ((rev r ++ y :: x :: after) !! length r = Some y) as Hy.
  { by apply list_lookup_middle. }
  rewrite Hdata. simpl sort.sink. simpl length.
  rewrite (I_Less _ _ _ _ _ Hx Hy). simpl bubble.
  destruct (lt x y).
  - rewrite (I_Swap _ _ _ _ _ Hx Hy).
    assert (<[length r := x]> (<[S (length r) := y]> (rev r ++ y :: x :: after))
            = rev r ++ x :: y :: after) as ->.
    { rewrite !insert_app_r_alt by (rewrite ?length_insert; lia).
      replace (S (length r) - length (rev r)) with 1 by lia.
      by replace (length r - length (rev r)) with 0 by lia. }
    rewrite IH. simpl. by rewrite <- (assoc_L app).
  - simpl. by rewrite <- !(assoc_L app).
Qed.

Lemma insertionSort_from before : ∀ rest,
  foldl (λ d i, sort.sink I 0 i d) (rev before ++ rest)
    (seq (length before) (length rest))
  = rev (foldl (λ acc x, bubble lt x acc) before rest).
Proof.
  intros rest. revert before.
  induction rest as [|x rest IH]; intros before; simpl.
  - by rewrite app_nil_r.
  - rewrite sink_bubble. rewrite <- (length_bubble x before). apply IH.
Qed.

(** [insertionSort] on the whole list computes the insertion sort of the
    list. *)
Lemma insertionSort_insertAll l :
  sort.insertionSort I l 0 (sort.Len I l) = insertAll lt l.
Proof.
  unfold sort.insertionSort, insertAll. rewrite I_Len.
  destruct l as [|x rest]; [done|]. simpl.
  replace (length rest - 0) with (length rest) by lia.
  apply (insertionSort_from [x] rest).
Qed.

Lemma insertAll_perm l : insertAll lt l ≡ₚ l.
Proof.
  unfold insertAll. rewrite <- Permutation_rev.
  assert (∀ acc, foldl (λ acc x, bubble lt x acc) acc l ≡ₚ acc ++ l) as Hperm.
  { induction l as [|x rest IH]; intros acc; simpl; [by rewrite app_nil_r|].
    rewrite IH, bubble_perm. simpl. apply Permutation_middle. }
  apply (Hperm []).
Qed.

(** With an [lt] that decides a transitive relation [R] ("may stand
    before") one way or the other, the sorted list is ordered by [R]. *)
Context (R : A → A → Prop).
Hypothesis R_trans : ∀ x y z, R x y → R y z → R x z.
Hypothesis lt_true : ∀ x y, lt x y = true → R x y.
Hypothesis lt_false : ∀ x y, lt x y = false → R y x.

Lemma bubble_sorted x before :
  StronglySorted (flip R) before → StronglySorted (flip R) (bubble lt x before).
Proof.
  induction before as [|y r IH]; simpl; intros Hsorted.
  - repeat constructor.
  - apply StronglySorted_cons in Hsorted as [Hy Hr].
    destruct (lt x y) eqn:Hxy.
    + apply StronglySorted_cons. split; [|by apply IH].
      rewrite bubble_perm. constructor; [by apply lt_true | done].
    + apply lt_false in Hxy.
      apply StronglySorted_cons. split.
      * constructor; [done|]. eapply Forall_impl; [exact Hy|].
        intros z Hz. unfold flip in *. by eapply R_trans.
      * by apply StronglySorted_cons.
Qed.

Lemma StronglySorted_rev_flip (l : list A) :
  StronglySorted (flip R) l → StronglySorted R (rev l).
Proof.
  induction l as [|x l IH]; simpl; intros Hsorted; [constructor|].
  apply StronglySorted_cons in Hsorted as [Hx Hl].
  apply StronglySorted_app. split; [|split; [by apply IH | repeat constructor]].
  intros x1 x2 Hx1 ->%list_elem_of_singleton.
  rewrite Forall_forall in Hx. apply Hx.
  by apply list_elem_of_In, in_rev, list_elem_of_In in Hx1.
Qed.

Lemma insertAll_sorted l : StronglySorted R (insertAll lt l).
Proof.
  unfold insertAll. apply StronglySorted_rev_flip.
  assert (∀ acc, StronglySorted (flip R) acc →
            StronglySorted (flip R) (foldl (λ acc x, bubble lt x acc) acc l))
    as Hfold.
  { induction l as [|x rest IH]; intros acc Hacc; simpl; [done|].
    by apply IH, bubble_sorted. }
  apply Hfold. constructor.
Qed.

(** [Sort] orders the list by [R]: a short list by the insertion sort, a
    long one by the law of the library. *)
Lemma Sort_sorted `{SL : sort.Lib} {HSL : sort.Laws SL} l :
  StronglySorted R (sort.Sort I l).
Proof.
  unfold sort.Sort. case_decide as Hshort.
  - rewrite insertionSort_insertAll. apply insertAll_sorted.
  - rewrite I_Len in Hshort. apply (sort.swaps_sorted A I lt R); auto. lia.
Qed.

End insertion_sort.

(** The reference instance obeys the law. *)
Lemma insertionLib_laws : sort.Laws insertionLib.
Proof.
  constructor. intros A I lt R HLen HLess HSwap Htrans Htrue Hfalse l _.
  rewrite insertionLib_insertionSort.
  rewrite (insertionSort_insertAll I lt HLen HLess HSwap).
  by apply insertAll_sorted.
Qed.

Example SortEntries_mixed :
  map (λ cv : ChartVersion, Version cv)
    (entriesOf (SortEntries (H := semver_ref.lib) (H0 := insertionLib) mixed) "x")
  = ["2.0.0"; "2.0.0-rc.1"; "1.2.0"; "0.9"; "stable"; "latest"].
Proof. reflexivity. Qed.

Section sort_entries.
Context `{L : semver.Lib} {HL : semver.Laws L}.
Context `{SL : sort.Lib} {HSL : sort.Laws SL}.

Lemma wellFormed_or_malformed version : wellFormed version ∨ malformed version.
Proof.
  unfold wellFormed, malformed.
  destruct (semver.NewVersion version); [right | left]; by eexists.
Qed.

Lemma malformed_not_wellFormed version : malformed version → ¬ wellFormed version.
Proof. intros [msg Hm] [v Hv]. congruence. Qed.

Lemma precedes_trans (x y z : ChartVersion) :
  precedes x y → precedes y z → precedes x z.
Proof.
  unfold precedes.
  destruct (semver.NewVersion (Version x)), (semver.NewVersion (Version y)),
    (semver.NewVersion (Version z)); try done.
  apply Compare_ge_trans.
Qed.

Lemma reverseLess_true (x y : ChartVersion) : reverseLess x y = true → precedes x y.
Proof.
  unfold reverseLess, VersionOrdering, precedes, semver.LessThan.
  destruct (semver.NewVersion (Version y)) as [?|vy],
    (semver.NewVersion (Version x)) as [?|vx]; try done.
  rewrite (semver.Compare_antisym vy vx).
  by destruct (semver.Compare vy vx).
Qed.

Lemma reverseLess_false (x y : ChartVersion) : reverseLess x y = false → precedes y x.
Proof.
  unfold reverseLess, VersionOrdering, precedes, semver.LessThan.
  destruct (semver.NewVersion (Version y)) as [?|vy],
    (semver.NewVersion (Version x)) as [?|vx]; try done.
  by destruct (semver.Compare vy vx).
Qed.

Lemma Reverse_Less (l : ChartVersions) i j (x y : ChartVersion) :
  l !! i = Some x → l !! j = Some y →
  sort.Less (sort.Reverse ChartVersions_sort) l i j = reverseLess x y.
Proof. intros Hx Hy. simpl. unfold Less. by rewrite Hx, Hy. Qed.

Lemma Reverse_Swap (l : ChartVersions) i j (x y : ChartVersion) :
  l !! i = Some x → l !! j = Some y →
  sort.Swap (sort.Reverse ChartVersions_sort) l i j = <[j := x]> (<[i := y]> l).
Proof. intros Hx Hy. simpl. unfold Swap. by rewrite Hx, Hy. Qed.

(** [Sort] rearranges the list, whatever the long sort does. *)
Lemma Sort_Reverse_perm (vs : ChartVersions) :
  sort.Sort (sort.Reverse ChartVersions_sort) vs ≡ₚ vs.
Proof.
  unfold sort.Sort. case_decide.
  - rewrite (insertionSort_insertAll (sort.Reverse ChartVersions_sort) reverseLess
               (λ _, eq_refl) Reverse_Less Reverse_Swap).
    apply insertAll_perm.
  - apply swapAll_perm.
Qed.

Lemma Sort_Reverse_sorted (vs : ChartVersions) :
  StronglySorted precedes (sort.Sort (sort.Reverse ChartVersions_sort) vs).
Proof.
  apply (Sort_sorted (sort.Reverse ChartVersions_sort) reverseLess
           (λ _, eq_refl) Reverse_Less Reverse_Swap);
    eauto using precedes_trans, reverseLess_true, reverseLess_false.
Qed.

Lemma StronglySorted_lookup_lt (out : ChartVersions) a b (x y : ChartVersion) :
  StronglySorted precedes out → a < b →
  out !! a = Some x → out !! b = Some y → precedes x y.
Proof.
  intros Hsorted Hab Hx Hy.
  rewrite <- (take_drop_middle out a x Hx) in Hsorted, Hy.
  apply StronglySorted_app_1_r, StronglySorted_cons in Hsorted as [Hall _].
  rewrite Forall_forall in Hall. apply Hall.
  pose proof (lookup_lt_Some _ _ _ Hx) as Hlen.
  rewrite lookup_app_r in Hy by (rewrite length_take; lia).
  rewrite length_take, Nat.min_l in Hy by lia.
  destruct (b - a) as [|n] eqn:Hn; [lia|]. simpl in Hy.
  by apply list_elem_of_lookup_2 in Hy.
Qed.

(** A list ordered by [precedes] keeps the versions that do not parse
    behind the others, and starts, if some version parses, with one that
    parses and that the library compares below no other. *)
Lemma precedes_sorted_highest_first (out : ChartVersions) :
  StronglySorted precedes out →
  (∀ a b (x y : ChartVersion), a < b →
     out !! a = Some x → out !! b = Some y →
     malformed (Version x) → malformed (Version y))
  ∧ (∀ w : ChartVersion, w ∈ out → wellFormed (Version w) →
       ∃ (h : ChartVersion) (vh : semver.Version),
         out !! 0 = Some h ∧ semver.NewVersion (Version h) = inr vh
         ∧ ∀ (w' : ChartVersion) (vw' : semver.Version), w' ∈ out →
             semver.NewVersion (Version w') = inr vw' →
             semver.Compare vh vw' ≠ Lt).
Proof.
  intros Hsorted. split.
  - intros a b x y Hab Hx Hy [msg Hbad].
    pose proof (StronglySorted_lookup_lt out a b x y Hsorted Hab Hx Hy) as Hxy.
    unfold precedes in Hxy. rewrite Hbad in Hxy. unfold malformed.
    destruct (semver.NewVersion (Version y)); [by eexists | done].
  - intros w Hw Hgood.
    destruct out as [|h rest]; [by apply elem_of_nil in Hw|].
    apply StronglySorted_cons in Hsorted as [Hh _].
    rewrite Forall_forall in Hh.
    assert (wellFormed (Version h)) as [vh Hvh].
    { apply elem_of_cons in Hw as [<-|Hw]; [done|].
      specialize (Hh w Hw). unfold precedes in Hh.
      destruct Hgood as [vw Hvw]. rewrite Hvw in Hh. unfold wellFormed.
      destruct (semver.NewVersion (Version h)); [done | by eexists]. }
    exists h, vh. split; [done|]. split; [done|].
    intros w' vw' Hw' Hvw'.
    apply elem_of_cons in Hw' as [->|Hw'].
    + assert (vw' = vh) as -> by congruence. by rewrite Compare_refl.
    + specialize (Hh w' Hw'). unfold precedes in Hh. by rewrite Hvh, Hvw' in Hh.
Qed.

(** C2.  After [SortEntries] the list under every name is a
    rearrangement of the list before; in it no version that fails to
    parse stands before one that parses; and if the list holds a version
    that parses, the version of the record at index 0 parses and is the
    highest by the precedence of the library: [Compare] puts it below no
    parsed version of the list. *)
Theorem SortEntries_highest_first (i : IndexFile) (name : string)
    (vs : ChartVersions) :
  Entries i !! name = Some vs →
  ∃ out : ChartVersions,
    Entries (SortEntries i) !! name = Some out
    ∧ out ≡ₚ vs
    ∧ (∀ a b (x y : ChartVersion), a < b →
         out !! a = Some x → out !! b = Some y →
         malformed (Version x) → malformed (Version y))
    ∧ (∀ w : ChartVersion, w ∈ vs → wellFormed (Version w) →
         ∃ (h : ChartVersion) (vh : semver.Version),
           out !! 0 = Some h ∧ semver.NewVersion (Version h) = inr vh
           ∧ ∀ (w' : ChartVersion) (vw' : semver.Version), w' ∈ vs →
               semver.NewVersion (Version w') = inr vw' →
               semver.Compare vh vw' ≠ Lt).
Proof.
  intros Hvs.
  exists (sort.Sort (sort.Reverse ChartVersions_sort) vs).
  destruct (precedes_sorted_highest_first _ (Sort_Reverse_sorted vs))
    as [Hback Hhead].
  pose proof (Sort_Reverse_perm vs) as Hperm.
  split; [|split; [done|split; [done|]]].
  - unfold SortEntries. simpl. by rewrite lookup_fmap, Hvs.
  - intros w Hw Hgood. rewrite <- Hperm in Hw.
    destruct (Hhead w Hw Hgood) as (h & vh & Hh & Hvh & Hmax).
    exists h, vh. split; [done|]. split; [done|].
    intros w' vw' Hw'. rewrite <- Hperm in Hw'. by apply Hmax.
Qed.

End sort_entries.

Lemma SortEntries_highest_first_witness :
  ∃ (out : ChartVersions) (h : ChartVersion) (vh v120 : semver_ref.t),
    Entries (SortEntries (H := semver_ref.lib) (H0 := insertionLib) mixed) !! "x"
    = Some out
    ∧ out !! 0 = Some h
    ∧ semver_ref.parse (Version h) = inr vh
    ∧ semver_ref.parse "1.2.0" = inr v120
    ∧ semver_ref.compare vh v120 ≠ Lt.
Proof.
  destruct (SortEntries_highest_first (L := semver_ref.lib) (HL := semver_ref_laws)
              (SL := insertionLib) (HSL := insertionLib_laws)
              mixed "x"
              [record "x" "1.2.0" "A"; record "x" "latest" "B";
               record "x" "2.0.0-rc.1" "C"; record "x" "stable" "D";
               record "x" "2.0.0" "E"; record "x" "0.9" "F"])
    as (out & Hout & _ & _ & Hhead); [reflexivity|].
  destruct (Hhead (record "x" "1.2.0" "A")) as (h & vh & Hh & Hvh & Hmax).
  - left.
  - by eexists.
  - exists out, h, vh. eexists.
    split; [exact Hout|]. split; [exact Hh|]. split; [exact Hvh|].
    split; [reflexivity|].
    apply (Hmax (record "x" "1.2.0" "A")); [left | reflexivity].
Defined.

(** * Further properties *)

(** ** Lookup *)

Lemma findVersion_first version (vs : ChartVersions) (ver : ChartVersion) :
  findVersion version vs = Some ver →
  ∃ k, vs !! k = Some ver ∧ Version ver = version
       ∧ ∀ j (c : ChartVersion), j < k → vs !! j = Some c → Version c ≠ version.
Proof.
  induction vs as [|v vs IH]; simpl; [done|].
  case_decide as Hv.
  - intros [= <-]. exists 0. split; [done|]. split; [done|]. intros j c Hj. lia.
  - intros (k & Hk & Hver & Hfirst)%IH. exists (S k).
    split; [done|]. split; [done|].
    intros [|j] c Hj Hc; simpl in Hc.
    + by injection Hc as <-.
    + apply (Hfirst j c); [lia | done].
Qed.

Lemma findVersion_is_Some version (vs : ChartVersions) :
  is_Some (findVersion version vs)
  ↔ ∃ cv : ChartVersion, cv ∈ vs ∧ Version cv = version.
Proof.
  split.
  - intros [ver Hver]. exists ver. by apply findVersion_Some.
  - intros (cv & Hin & Hv). destruct (findVersion version vs) eqn:Hf; [by eexists|].
    apply findVersion_None in Hf. rewrite Forall_forall in Hf.
    by destruct (Hf cv Hin).
Qed.

(** X1.  A successful [Get] returns a record of the list under the name:
    the one at index 0 when the version asked for is empty, and else the
    first record of the list whose version is exactly the string asked
    for. *)
Theorem Get_returns_first_match (i : IndexFile) (name version : string)
    (cv : ChartVersion) :
  Get i name version = OK cv →
  ∃ vs, Entries i !! name = Some vs
    ∧ (version = "" → vs !! 0 = Some cv)
    ∧ (version ≠ "" →
         ∃ k, vs !! k = Some cv ∧ Version cv = version
              ∧ ∀ j (c : ChartVersion), j < k → vs !! j = Some c →
                  Version c ≠ version).
Proof.
  unfold Get. destruct (Entries i !! name) as [[|v0 vs]|]; [done| |done].
  intros Hget. exists (v0 :: vs). split; [done|].
  case_decide as Hlen.
  - apply length_zero_empty in Hlen. injection Hget as <-. by split.
  - rewrite length_zero_empty in Hlen. split; [done|]. intros _.
    destruct (findVersion version (v0 :: vs)) as [ver|] eqn:Hf; [|done].
    injection Hget as <-. by apply findVersion_first.
Qed.

Lemma Get_returns_first_match_witness :
  ∃ vs, Entries c2 !! "x" = Some vs
    ∧ ∃ k, vs !! k = Some (record "x" "2.0.0" "CCC").
Proof.
  destruct (Get_returns_first_match c2 "x" "2.0.0" (record "x" "2.0.0" "CCC"))
    as (vs & Hvs & _ & Hk); [reflexivity|].
  assert ("2.0.0" ≠ "") as Hver by discriminate.
  destruct (Hk Hver) as (k & Hat & _).
  exists vs. split; [exact Hvs|]. exists k. exact Hat.
Defined.

(** X2.  [Has(name, version)] is true exactly when the name maps to a
    list that is not empty and either the version asked for is empty or
    some record of the list carries exactly that version. *)
Theorem Has_iff_record (i : IndexFile) (name version : string) :
  Has i name version = true
  ↔ ∃ vs, Entries i !! name = Some vs ∧ vs ≠ []
      ∧ (version = "" ∨ ∃ cv : ChartVersion, cv ∈ vs ∧ Version cv = version).
Proof.
  rewrite Has_spec, findVersion_is_Some. split.
  - intros [Hne Hv]. exists (entriesOf i name).
    split; [by apply entriesOf_nonempty|]. by split.
  - intros (vs & Hvs & Hne & Hv). rewrite (Entries_entriesOf _ _ _ Hvs). by split.
Qed.

(** ** Adding a record *)

Section adding.
Context `{P : PathLib}.

Lemma Add_entriesOf now i md filename baseURL digest name :
  entriesOf (Add now i md filename baseURL digest) name
  = entriesOf i name
    ++ (if decide (Name md = name)
        then [addedRecord now md filename baseURL digest] else []).
Proof.
  unfold Add, addedRecord, entriesOf.
  destruct (decide (Name md = name)) as [<-|Hname];
    destruct (Entries i !! Name md) as [ee|] eqn:Hmd; simpl.
  - by rewrite lookup_insert_eq.
  - by rewrite lookup_insert_eq.
  - rewrite lookup_insert_ne by done. by rewrite app_nil_r.
  - rewrite lookup_insert_ne by done. by rewrite app_nil_r.
Qed.

Lemma Add_lookup_ne now i md filename baseURL digest name :
  name ≠ Name md →
  Entries (Add now i md filename baseURL digest) !! name = Entries i !! name.
Proof.
  intros Hne. unfold Add.
  destruct (Entries i !! Name md); simpl; by rewrite lookup_insert_ne.
Qed.

Lemma Add_lookup_eq now i md filename baseURL digest :
  Entries (Add now i md filename baseURL digest) !! Name md
  = Some (entriesOf i (Name md) ++ [addedRecord now md filename baseURL digest]).
Proof.
  unfold Add, addedRecord, entriesOf.
  destruct (Entries i !! Name md); simpl; by rewrite lookup_insert_eq.
Qed.

Lemma Add_APIVersion now i md filename baseURL digest :
  APIVersion (Add now i md filename baseURL digest) = APIVersion i.
Proof. unfold Add. by destruct (Entries i !! Name md). Qed.

Lemma Add_wellKeyed now i md filename baseURL digest :
  wellKeyed i → wellKeyed (Add now i md filename baseURL digest).
Proof.
  unfold wellKeyed. intros Hkeyed.
  assert (Forall (λ cv : ChartVersion, Name cv = Name md) (entriesOf i (Name md)))
    as Hold.
  { unfold entriesOf. destruct (Entries i !! Name md) eqn:Hmd; [|constructor].
    by apply (Hkeyed _ _ Hmd). }
  unfold Add. unfold entriesOf in Hold.
  destruct (Entries i !! Name md); simpl; apply map_Forall_insert_2; try done.
  - apply Forall_app. split; [done|]. by repeat constructor.
  - by repeat constructor.
Qed.

(** X3.  [Add] never hides a record: a lookup that succeeded before the
    call returns the same record after it, even when the record added
    carries the same name and version; and lookups under any other name
    are what they were. *)
Theorem Add_keeps_lookups (now : Time) (i : IndexFile) (md : chart_Metadata)
    (filename baseURL digest : string) :
  (∀ name version cv, Get i name version = OK cv →
     Get (Add now i md filename baseURL digest) name version = OK cv)
  ∧ (∀ name version, name ≠ Name md →
       Get (Add now i md filename baseURL digest) name version
       = Get i name version).
Proof.
  split.
  - intros name version cv Hget.
    destruct (decide (name = Name md)) as [->|Hne].
    + eapply (Get_entriesOf i); [| |exact Hget].
      * rewrite Add_lookup_eq. f_equal.
        rewrite Add_entriesOf. by rewrite decide_True.
      * apply Add_entriesOf.
    + unfold Get in *. by rewrite Add_lookup_ne.
  - intros name version Hne. unfold Get. by rewrite Add_lookup_ne.
Qed.

(** X4.  After [Add] the catalog has the name and version added; and when
    the version is not empty and the catalog did not have the pair, [Get]
    returns for it the record just built, with the digest given and, for
    an empty base URL, the file name as its only URL. *)
Theorem Add_then_Get (now : Time) (i : IndexFile) (md : chart_Metadata)
    (filename baseURL digest : string) :
  Has (Add now i md filename baseURL digest) (Name md) (Version md) = true
  ∧ (Version md ≠ "" → Has i (Name md) (Version md) = false →
       ∃ cr : ChartVersion,
         Get (Add now i md filename baseURL digest) (Name md) (Version md) = OK cr
         ∧ Metadata cr = md ∧ Digest cr = digest ∧ Created cr = now
         ∧ (baseURL = "" → URLs cr = [filename])).
Proof.
  assert (findVersion (Version md) [addedRecord now md filename baseURL digest]
          = Some (addedRecord now md filename baseURL digest)) as Hnew
    by (simpl; by rewrite decide_True).
  split.
  - apply Has_spec. rewrite Add_entriesOf, decide_True by done. split.
    + intros [_ ?]%app_eq_nil. done.
    + right.
      destruct (findVersion (Version md) (entriesOf i (Name md))) as [c|] eqn:Hf.
      * exists c. by apply findVersion_app_l.
      * rewrite (findVersion_app_r _ _ _ Hf). by eexists.
  - intros Hver Hhas.
    assert (findVersion (Version md) (entriesOf i (Name md)) = None) as Hnone.
    { destruct (findVersion (Version md) (entriesOf i (Name md))) as [c|] eqn:Hc;
        [|done].
      assert (Has i (Name md) (Version md) = true); [|congruence].
      apply Has_spec. split; [|right; by eexists].
      intros Hnil. by rewrite Hnil in Hc. }
    exists (addedRecord now md filename baseURL digest). split.
    + eapply Get_found; [apply Add_lookup_eq | done |].
      by rewrite (findVersion_app_r _ _ _ Hnone).
    + unfold addedRecord. simpl. repeat split; try done.
      intros ->. by rewrite decide_True.
Qed.

End adding.

Lemma Add_keeps_lookups_witness :
  Get (Add (H := plainPaths) 9%Z c1
         {| Name := "x"; Version := "1.0.0"; Fields := [] |} "x-1.0.0.tgz" "" "ZZZ")
    "x" "1.0.0"
  = OK (record "x" "1.0.0" "AAA").
Proof.
  destruct (Add_keeps_lookups (P := plainPaths) 9%Z c1
              {| Name := "x"; Version := "1.0.0"; Fields := [] |}
              "x-1.0.0.tgz" "" "ZZZ") as [Hkeep _].
  apply Hkeep. reflexivity.
Defined.

Lemma Add_then_Get_witness :
  ∃ cr : ChartVersion,
    Get (Add (H := plainPaths) 9%Z c1
           {| Name := "x"; Version := "3.0.0"; Fields := [] |} "x-3.0.0.tgz" "" "ZZZ")
      "x" "3.0.0" = OK cr
    ∧ Digest cr = "ZZZ" ∧ URLs cr = ["x-3.0.0.tgz"].
Proof.
  destruct (Add_then_Get (P := plainPaths) 9%Z c1
              {| Name := "x"; Version := "3.0.0"; Fields := [] |}
              "x-3.0.0.tgz" "" "ZZZ") as [_ Hget].
  assert ("3.0.0" ≠ "") as Hver by discriminate.
  destruct (Hget Hver eq_refl) as (cr & Hcr & _ & Hdigest & _ & Hurl).
  exists cr. split; [exact Hcr|]. split; [exact Hdigest | by apply Hurl].
Defined.

Lemma Has_iff_record_witness : Has c2 "x" "2.0.0" = true.
Proof.
  apply (Has_iff_record c2 "x" "2.0.0").
  exists [record "x" "1.0.0" "BBB"; record "x" "2.0.0" "CCC"].
  split; [reflexivity|]. split; [discriminate|]. right.
  exists (record "x" "2.0.0" "CCC"). split; [right; left | reflexivity].
Defined.

(** ** Merge, continued *)

Lemma mergeOne_Has_mono i (cv : ChartVersion) name version :
  Has i name version = true → Has (mergeOne i cv) name version = true.
Proof.
  rewrite !Has_spec, mergeOne_entriesOf. intros [Hne Hv]. split.
  - intros [? _]%app_eq_nil. done.
  - destruct Hv as [->|[c Hc]]; [by left|]. right. exists c.
    by apply findVersion_app_l.
Qed.

Lemma mergeOne_Has_self i (cv : ChartVersion) :
  Has (mergeOne i cv) (Name cv) (Version cv) = true.
Proof.
  destruct (Has i (Name cv) (Version cv)) eqn:Hhas.
  - by apply mergeOne_Has_mono.
  - apply Has_spec. rewrite mergeOne_entriesOf. unfold appended.
    rewrite Hhas, decide_True by done. split.
    + intros [_ ?]%app_eq_nil. done.
    + right.
      destruct (findVersion (Version cv) (entriesOf i (Name cv))) as [c|] eqn:Hf.
      * exists c. by apply findVersion_app_l.
      * rewrite (findVersion_app_r _ _ _ Hf). simpl. rewrite decide_True by done.
        by eexists.
Qed.

Lemma foldl_mergeOne_Has_mono l : ∀ i name version,
  Has i name version = true → Has (foldl mergeOne i l) name version = true.
Proof.
  induction l as [|cv l IH]; intros i name version Hhas; simpl; [done|].
  by apply IH, mergeOne_Has_mono.
Qed.

Lemma foldl_mergeOne_covers l : ∀ i (cv : ChartVersion),
  cv ∈ l → Has (foldl mergeOne i l) (Name cv) (Version cv) = true.
Proof.
  induction l as [|x l IH]; intros i cv Hin; [by apply elem_of_nil in Hin|].
  simpl. apply elem_of_cons in Hin as [->|Hin]; [|by apply IH].
  apply foldl_mergeOne_Has_mono, mergeOne_Has_self.
Qed.

Lemma foldl_mergeOne_fixed l : ∀ i,
  Forall (λ cv : ChartVersion, Has i (Name cv) (Version cv) = true) l →
  foldl mergeOne i l = i.
Proof.
  induction l as [|cv l IH]; intros i Hall; simpl; [done|].
  inversion Hall; subst. unfold mergeOne at 2.
  replace (Has i (Name cv) (Version cv)) with true by done. simpl. by apply IH.
Qed.

Lemma mergeOne_header i (cv : ChartVersion) :
  APIVersion (mergeOne i cv) = APIVersion i
  ∧ Generated (mergeOne i cv) = Generated i
  ∧ PublicKeys (mergeOne i cv) = PublicKeys i.
Proof. unfold mergeOne. by destruct (Has i (Name cv) (Version cv)). Qed.

Lemma foldl_mergeOne_header l : ∀ i,
  APIVersion (foldl mergeOne i l) = APIVersion i
  ∧ Generated (foldl mergeOne i l) = Generated i
  ∧ PublicKeys (foldl mergeOne i l) = PublicKeys i.
Proof.
  induction l as [|cv l IH]; intros i; simpl; [done|].
  destruct (IH (mergeOne i cv)) as (-> & -> & ->). apply mergeOne_header.
Qed.

Lemma mergeOne_wellKeyed i (cv : ChartVersion) :
  wellKeyed i → wellKeyed (mergeOne i cv).
Proof.
  unfold wellKeyed, mergeOne. intros Hkeyed.
  destruct (Has i (Name cv) (Version cv)); simpl; [done|].
  apply map_Forall_insert_2; [|done]. apply Forall_app. split.
  - destruct (Entries i !! Name cv) eqn:Hcv; simpl; [|constructor].
    by apply (Hkeyed _ _ Hcv).
  - by repeat constructor.
Qed.

Lemma foldl_mergeOne_wellKeyed l : ∀ i,
  wellKeyed i → wellKeyed (foldl mergeOne i l).
Proof.
  induction l as [|cv l IH]; intros i Hkeyed; simpl; [done|].
  by apply IH, mergeOne_wellKeyed.
Qed.

(** Under a name the loop appends to, it leaves a list, and a list it
    makes is never empty. *)
Lemma foldl_mergeOne_names l : ∀ i name,
  is_Some (Entries (foldl mergeOne i l) !! name)
  ↔ is_Some (Entries i !! name) ∨ ∃ cv : ChartVersion, cv ∈ l ∧ Name cv = name.
Proof.
  induction l as [|x l IH]; intros i name; simpl.
  - split; [by left|]. intros [?|(cv & Hin & _)]; [done|].
    by apply elem_of_nil in Hin.
  - rewrite IH. split.
    + intros [Hsome|(cv & Hin & Hname)].
      * unfold mergeOne in Hsome.
        destruct (Has i (Name x) (Version x)); simpl in Hsome; [by left|].
        destruct (decide (Name x = name)) as [Hx|Hx].
        -- right. exists x. split; [left | done].
        -- rewrite lookup_insert_ne in Hsome by done. by left.
      * right. exists cv. split; [by right | done].
    + intros [Hsome|(cv & [->|Hin]%elem_of_cons & Hname)].
      * left. by apply mergeOne_is_Some.
      * left. subst name.
        pose proof (mergeOne_Has_self i x) as Hhas.
        apply Has_spec in Hhas as [Hne _].
        rewrite (entriesOf_nonempty _ _ Hne). by eexists.
      * right. by exists cv.
Qed.

Section merge_more.
Context `{O : MapOrder}.

(** X5.  After [Merge(other)] the receiver has every (name, version) pair
    of [other]: [Has] is true for the name and version of each record of
    [other], an empty version included. *)
Theorem Merge_covers (i f : IndexFile) (cv : ChartVersion) :
  holds f cv → Has (Merge i f) (Name cv) (Version cv) = true.
Proof.
  intros Hcv. unfold Merge. rewrite mergeEntries_flat.
  apply foldl_mergeOne_covers. by apply elem_of_visited.
Qed.

(** X6.  [Merge] gives the receiver a list under exactly the names it had
    and the names that records of [other] carry (a key of [other] that no
    record bears as its name is not taken over), and leaves the receiver's
    format tag, timestamp and public keys as they were. *)
Theorem Merge_names (i f : IndexFile) :
  (∀ name, is_Some (Entries (Merge i f) !! name)
           ↔ is_Some (Entries i !! name)
             ∨ ∃ cv : ChartVersion, holds f cv ∧ Name cv = name)
  ∧ APIVersion (Merge i f) = APIVersion i
  ∧ Generated (Merge i f) = Generated i
  ∧ PublicKeys (Merge i f) = PublicKeys i.
Proof.
  unfold Merge. rewrite mergeEntries_flat. split; [|apply foldl_mergeOne_header].
  intros name. rewrite foldl_mergeOne_names.
  split; (intros [?|(cv & Hcv & ?)]; [by left|]; right; exists cv;
          split; [by apply elem_of_visited | done]).
Qed.

(** X7.  [Merge] keeps a catalog well keyed: if every record of the
    receiver is filed under its own name, so is every record after the
    merge, whatever the keys of [other] are. *)
Theorem Merge_wellKeyed (i f : IndexFile) :
  wellKeyed i → wellKeyed (Merge i f).
Proof.
  intros Hkeyed. unfold Merge. rewrite mergeEntries_flat.
  by apply foldl_mergeOne_wellKeyed.
Qed.

End merge_more.

(** X8.  Merging the same catalog a second time changes nothing, in
    whatever order either merge visits the names: the second merge finds
    every pair of [other] in the receiver. *)
Theorem Merge_twice (O1 O2 : MapOrder) (i f : IndexFile) :
  Merge (H := O2) (Merge (H := O1) i f) f = Merge (H := O1) i f.
Proof.
  unfold Merge. rewrite !mergeEntries_flat.
  apply foldl_mergeOne_fixed. apply Forall_forall. intros cv Hcv.
  apply foldl_mergeOne_covers.
  by apply (elem_of_visited (H := O1)), (elem_of_visited (H := O2)).
Qed.

Lemma Merge_covers_witness :
  Has (Merge (H := listOrder) c1 unversioned) "x" "" = true.
Proof.
  apply (Merge_covers (O := listOrder) c1 unversioned (record "x" "" "BBB")).
  exists "x", [record "x" "1.0.0" "AAA"; record "x" "" "BBB"].
  split; [reflexivity|]. right. left.
Defined.

Lemma Merge_names_witness :
  is_Some (Entries (Merge (H := listOrder) c1 misfiled) !! "b")
  ∧ Entries (Merge (H := listOrder) c1 misfiled) !! "a" = None.
Proof.
  destruct (Merge_names (O := listOrder) c1 misfiled) as [Hnames _]. split.
  - apply Hnames. right. exists (record "b" "1.0.0" "AAA"). split; [|reflexivity].
    exists "a", [record "b" "1.0.0" "AAA"]. split; [reflexivity | left].
  - reflexivity.
Defined.

Lemma Merge_wellKeyed_witness : wellKeyed (Merge (H := listOrder) c1 misfiled).
Proof.
  apply (Merge_wellKeyed (O := listOrder) c1 misfiled).
  apply (bool_decide_unpack _). vm_compute. exact I.
Defined.

(** ** Catalogs built by [Add] *)


(** ** Sorting, continued *)

Lemma Has_perm (i i' : IndexFile) name version :
  entriesOf i' name ≡ₚ entriesOf i name →
  Has i' name version = Has i name version.
Proof.
  intros Hperm.
  assert (∀ j j' : IndexFile, entriesOf j' name ≡ₚ entriesOf j name →
            Has j name version = true → Has j' name version = true) as Hmono.
  { intros j j' Hp. rewrite !Has_spec, !findVersion_is_Some. intros [Hne Hv]. split.
    - intros Hnil. rewrite Hnil in Hp. by apply Permutation_nil_l in Hp.
    - destruct Hv as [->|(cv & Hin & Hcv)]; [by left|]. right. exists cv.
      by rewrite Hp. }
  destruct (Has i name version) eqn:Hi.
  - by apply (Hmono i i').
  - destruct (Has i' name version) eqn:Hi'; [|done].
    symmetry in Hperm. pose proof (Hmono i' i Hperm Hi'). congruence.
Qed.

Section sorting_more.
Context `{L : semver.Lib} `{SL : sort.Lib}.

Lemma SortEntries_entriesOf (i : IndexFile) name :
  entriesOf (SortEntries i) name
  = sort.Sort (sort.Reverse ChartVersions_sort) (entriesOf i name).
Proof.
  unfold SortEntries, entriesOf. simpl. rewrite lookup_fmap.
  by destruct (Entries i !! name).
Qed.

Lemma SortEntries_perm (i : IndexFile) name :
  entriesOf (SortEntries i) name ≡ₚ entriesOf i name.
Proof.
  rewrite SortEntries_entriesOf. apply Sort_Reverse_perm.
Qed.

(** X10.  [SortEntries] rearranges the list under each name and changes
    nothing else: the names, the format tag, the timestamp and the public
    keys stay, the list under a name holds the same records as before,
    every [Has] answers as before, and a well-keyed catalog stays well
    keyed. *)
Theorem SortEntries_keeps (i : IndexFile) :
  (∀ name, entriesOf (SortEntries i) name ≡ₚ entriesOf i name)
  ∧ (∀ name, Entries (SortEntries i) !! name = None ↔ Entries i !! name = None)
  ∧ (∀ name version, Has (SortEntries i) name version = Has i name version)
  ∧ APIVersion (SortEntries i) = APIVersion i
  ∧ Generated (SortEntries i) = Generated i
  ∧ PublicKeys (SortEntries i) = PublicKeys i
  ∧ (wellKeyed i → wellKeyed (SortEntries i)).
Proof.
  split; [apply SortEntries_perm|]. split.
  { intros name. unfold SortEntries. simpl. rewrite lookup_fmap.
    by destruct (Entries i !! name). }
  split; [intros name version; apply Has_perm, SortEntries_perm|].
  repeat split.
  unfold wellKeyed, SortEntries. simpl. intros Hkeyed.
  apply map_Forall_fmap. eapply map_Forall_impl; [exact Hkeyed|].
  intros k cvs Hall. simpl.
  rewrite Sort_Reverse_perm. exact Hall.
Qed.

Context {HL : semver.Laws L} {HSL : sort.Laws SL}.

(** X11.  After [SortEntries] every list is in descending order of
    precedence as far as its versions parse: a version that parses has only
    parsing versions before it, and the library's [Compare] puts none of
    those below it. *)
Theorem SortEntries_descending (i : IndexFile) (name : string)
    (out : ChartVersions) (a b : nat) (x y : ChartVersion)
    (vy : semver.Version) :
  Entries (SortEntries i) !! name = Some out →
  a < b → out !! a = Some x → out !! b = Some y →
  semver.NewVersion (Version y) = inr vy →
  ∃ vx : semver.Version,
    semver.NewVersion (Version x) = inr vx ∧ semver.Compare vx vy ≠ Lt.
Proof.
  intros Hout Hab Hx Hy Hvy.
  assert (StronglySorted precedes out) as Hsorted.
  { unfold SortEntries in Hout. simpl in Hout. rewrite lookup_fmap in Hout.
    destruct (Entries i !! name) as [vs|]; [|done].
    injection Hout as <-. apply Sort_Reverse_sorted. }
  pose proof (StronglySorted_lookup_lt out a b x y Hsorted Hab Hx Hy) as Hxy.
  unfold precedes in Hxy. rewrite Hvy in Hxy.
  destruct (semver.NewVersion (Version x)) as [?|vx]; [done|].
  by exists vx.
Qed.

(** X12.  On the versions of a list that parse, [Less] is a strict
    order: no index is below itself, and [Less(a, b)] with [Less(b, d)]
    gives [Less(a, d)]. *)
Theorem Less_strict_on_wellFormed (c : ChartVersions) (a b d : nat)
    (x y z : ChartVersion) :
  c !! a = Some x → c !! b = Some y → c !! d = Some z →
  wellFormed (Version x) → wellFormed (Version y) → wellFormed (Version z) →
  Less c a a = false
  ∧ (Less c a b = true → Less c b d = true → Less c a d = true).
Proof.
  intros Ha Hb Hd [vx Hvx] [vy Hvy] [vz Hvz].
  unfold Less, VersionOrdering, semver.LessThan.
  rewrite Ha, Hb, Hd, Hvx, Hvy, Hvz. split.
  - by rewrite Compare_refl.
  - pose proof (semver.Compare_trans vx vy vz) as Hle.
    pose proof (semver.Compare_trans vz vx vy) as Hrot.
    rewrite (semver.Compare_antisym vx vz) in Hrot.
    pose proof (semver.Compare_antisym vy vz) as Hyz.
    destruct (semver.Compare vx vy), (semver.Compare vy vz),
      (semver.Compare vx vz); simpl in *; try done;
      intros _ _; exfalso; first [by apply Hle | by apply Hrot].
Qed.

End sorting_more.

(** X13.  A version that fails to parse is below every version of the
    list, itself included, and no version that parses is below it: with
    one such version in the list [Less] is not irreflexive, and with two
    it holds both ways between them. *)
Theorem Less_malformed `{L : semver.Lib} (c : ChartVersions) (a b : nat)
    (x y : ChartVersion) :
  c !! a = Some x → c !! b = Some y → malformed (Version x) →
  Less c a b = true ∧ Less c a a = true
  ∧ (wellFormed (Version y) → Less c b a = false)
  ∧ (malformed (Version y) → Less c b a = true).
Proof.
  intros Ha Hb [msg Hx]. unfold Less, VersionOrdering. rewrite Ha, Hb, Hx.
  split; [done|]. split; [done|]. split.
  - by intros [vy ->].
  - by intros [msg' ->].
Qed.

Lemma SortEntries_keeps_witness :
  wellKeyed (SortEntries (H := semver_ref.lib) (H0 := insertionLib) mixed).
Proof.
  apply (SortEntries_keeps (L := semver_ref.lib) (SL := insertionLib) mixed).
  apply (bool_decide_unpack _). vm_compute. exact I.
Defined.

Lemma SortEntries_descending_witness :
  ∃ vx v09 : semver_ref.t,
    semver_ref.parse "2.0.0-rc.1" = inr vx
    ∧ semver_ref.parse "0.9" = inr v09
    ∧ semver_ref.compare vx v09 ≠ Lt.
Proof.
  destruct (SortEntries_descending (L := semver_ref.lib) (SL := insertionLib)
              (HL := semver_ref_laws) (HSL := insertionLib_laws)
              mixed "x"
              (entriesOf (SortEntries (H := semver_ref.lib) (H0 := insertionLib) mixed) "x")
              1 3 (record "x" "2.0.0-rc.1" "C") (record "x" "0.9" "F")
              {| semver_ref.major := 0; semver_ref.minor := 9; semver_ref.patch := 0;
                 semver_ref.pre := ""; semver_ref.metadata := "" |})
    as (vx & Hvx & Hge); [reflexivity | lia | reflexivity | reflexivity | reflexivity |].
  exists vx. eexists. split; [exact Hvx|]. split; [reflexivity|]. exact Hge.
Defined.

Lemma Less_strict_on_wellFormed_witness :
  Less (H := semver_ref.lib)
    [record "x" "0.9" "F"; record "x" "1.2.0" "A"; record "x" "2.0.0" "E"] 0 2
  = true.
Proof.
  eapply (Less_strict_on_wellFormed (L := semver_ref.lib) (HL := semver_ref_laws)
            _ 0 1 2); try reflexivity; by eexists.
Defined.

Lemma Less_malformed_witness :
  Less (H := semver_ref.lib) [record "x" "latest" "B"; record "x" "1.2.0" "A"] 0 0
  = true.
Proof.
  eapply (Less_malformed (L := semver_ref.lib) _ 0 1); try reflexivity.
  by eexists.
Defined.

(** ** Loading, continued *)

Section loading_more.
Context `{D : Decoder} `{O : MapOrder} `{P : PathLib}.

Lemma Add_Generated now i md filename baseURL digest :
  Generated (Add now i md filename baseURL digest) = Generated i.
Proof. unfold Add. by destruct (Entries i !! Name md). Qed.

(** The loop of the legacy loader over the entries that remain, the next
    reading of the clock being reading [k]. *)
Lemma legacy_loop_entriesOf (clock : Clock) (l : list (string * unversionedEntry)) :
  ∀ k ni name,
  entriesOf
    (foldl (λ ni '(k, (n, item)),
              Add (clock k) ni (legacyChartfile n item) (URL item) "" (Checksum item))
       ni (numberedFrom k l)) name
  = entriesOf ni name
    ++ filter (λ cv : ChartVersion, Name cv = name)
         ((λ p, legacyRecord (clock p.1) p.2.1 p.2.2) <$> numberedFrom k l).
Proof.
  induction l as [|[n item] l IH]; intros k ni name; simpl.
  - by rewrite app_nil_r.
  - rewrite IH, Add_entriesOf, <- (assoc_L app). f_equal.
    rewrite filter_cons. simpl.
    destruct (decide (Name (legacyChartfile n item) = name)); [|done].
    reflexivity.
Qed.

Lemma legacy_loop_keeps (clock : Clock) (l : list (string * unversionedEntry)) :
  ∀ k ni,
  let ni' := foldl (λ ni '(k, (n, item)),
                      Add (clock k) ni (legacyChartfile n item) (URL item) ""
                        (Checksum item)) ni (numberedFrom k l) in
  APIVersion ni' = APIVersion ni ∧ Generated ni' = Generated ni
  ∧ (wellKeyed ni → wellKeyed ni').
Proof.
  induction l as [|[n item] l IH]; intros k ni; simpl; [done|].
  destruct (IH (S k)
              (Add (clock k) ni (legacyChartfile n item) (URL item) "" (Checksum item)))
    as (-> & -> & Hkeyed).
  split; [apply Add_APIVersion|]. split; [apply Add_Generated|].
  intros Hni. by apply Hkeyed, Add_wellKeyed.
Qed.

(** X14.  From a legacy mapping that is not empty the loader builds a
    catalog of the current format, well keyed and stamped with the first
    reading of the clock, with one record for each entry of the mapping:
    under every name, the records are those of the entries whose
    descriptor (given or derived from the key) carries that name, in the
    order in which the mapping was visited, each with the entry's URL as
    its only URL, the entry's checksum as its digest, and the reading of
    the clock of its own turn as its time of creation. *)
Theorem loadUnversionedIndex_records (clock : Clock) (data json : string)
    (m : gmap string unversionedEntry) :
  yaml_YAMLToJSON data = inr json → json_Unmarshal json = inr m → m ≠ ∅ →
  ∃ ni, loadUnversionedIndex clock data = OK ni
    ∧ APIVersion ni = APIVersionV1
    ∧ Generated ni = clock 0
    ∧ wellKeyed ni
    ∧ ∀ name, entriesOf ni name
              = filter (λ cv : ChartVersion, Name cv = name)
                  ((λ p, legacyRecord (clock p.1) p.2.1 p.2.2)
                     <$> numberedFrom 1 (mapRange m)).
Proof.
  intros Hjson Hm Hne. unfold loadUnversionedIndex. rewrite Hjson, Hm.
  rewrite decide_False by (by rewrite map_size_empty_iff).
  eexists. split; [done|].
  destruct (legacy_loop_keeps clock (mapRange m) 1 (NewIndexFile (clock 0)))
    as (Hv & Hgen & Hkeyed).
  split; [by rewrite Hv|]. split; [by rewrite Hgen|].
  split; [apply Hkeyed, map_Forall_empty|].
  intros name. by rewrite legacy_loop_entriesOf.
Qed.

(** X15.  A catalog that [LoadIndex] returns never has an empty format
    tag: a current document keeps its own, and a legacy document comes
    back with the tag of the current format. *)
Theorem LoadIndex_apiVersion (clock : Clock) (data : string) (i : IndexFile) :
  LoadIndex clock data = OK i → APIVersion i ≠ "".
Proof.
  unfold LoadIndex. destruct (yaml_Unmarshal data) as [?|i0]; [done|].
  case_decide as Hv; [|by intros [= <-]].
  unfold loadUnversionedIndex.
  destruct (yaml_YAMLToJSON data) as [?|json]; [done|].
  destruct (json_Unmarshal json) as [?|m]; [done|].
  case_decide; [done|]. intros [= <-].
  destruct (legacy_loop_keeps clock (mapRange m) 1 (NewIndexFile (clock 0)))
    as (-> & _ & _).
  done.
Qed.

End loading_more.

Lemma loadUnversionedIndex_records_witness :
  ∃ ni, loadUnversionedIndex (H := legacyDecoder) (H0 := listOrder)
          (H1 := plainPaths) (ticks 7%Z) legacyDocument = OK ni
    ∧ Generated ni = 7%Z
    ∧ entriesOf ni "foo"
      = [{| Metadata := {| Name := "foo"; Version := "1.2.3"; Fields := [] |};
            URLs := ["http://example.com/foo-1.2.3.tgz"]; Created := 8%Z;
            Removed := false; Digest := "sha1:aaa" |};
         {| Metadata := {| Name := "foo"; Version := "2.0.0"; Fields := [] |};
            URLs := ["http://example.com/foo-latest.tgz"]; Created := 9%Z;
            Removed := false; Digest := "sha1:bbb" |}]
    ∧ (λ cv : ChartVersion, Version cv) <$> entriesOf ni "bar" = [""].
Proof.
  destruct (loadUnversionedIndex_records (D := legacyDecoder) (O := listOrder)
              (P := plainPaths) (ticks 7%Z) legacyDocument legacyDocument
              legacyEntries)
    as (ni & Hni & _ & Hgen & _ & Hrecords); [reflexivity | reflexivity | |].
  - intros Hempty. apply (f_equal (λ m, m !! "bar")) in Hempty.
    vm_compute in Hempty. discriminate Hempty.
  - exists ni. split; [exact Hni|]. split; [exact Hgen|].
    rewrite !Hrecords. split; vm_compute; reflexivity.
Defined.

Lemma LoadIndex_apiVersion_witness :
  APIVersion (catalog []) ≠ "".
Proof.
  apply (LoadIndex_apiVersion (D := sampleDecoder) (O := listOrder) (P := plainPaths)
           (ticks 7%Z) "apiVersion: v1"). reflexivity.
Defined.

(** ** Indexing a directory *)

Section indexing.
Context `{P : PathLib} `{IO : IOLib}.

(** The archives of a list that load, each with the reading of the clock
    its [Add] takes when the next reading is reading [k]. *)
Lemma indexArchives_app (clock : Clock) fs baseURL (pre rest : list string) :
  ∀ k index, digestible fs pre →
  indexArchives clock k fs baseURL (pre ++ rest) index
  = indexArchives clock (k + length (filter (λ arch, loads fs arch) pre))
      fs baseURL rest (indexArchives clock k fs baseURL pre index).1.
Proof.
  induction pre as [|arch pre IH]; intros k index Hpre; simpl.
  - by rewrite Nat.add_0_r.
  - assert (digestible fs pre) as Hpre'
      by (intros a md Ha; apply Hpre; by right).
    destruct (chartutil_Load fs arch) as [?|md] eqn:Hload.
    + rewrite filter_cons_False by (unfold loads; rewrite Hload; exact id).
      by apply IH.
    + rewrite filter_cons_True by (unfold loads; rewrite Hload; exact I).
      destruct (Hpre arch md) as [hash ->]; [left | done |].
      rewrite IH by done. simpl length. by rewrite Nat.add_succ_r.
Qed.

(** The loop over archives that all have a digest when they load. *)
Lemma indexArchives_digestible (clock : Clock) fs baseURL (archives : list string) :
  ∀ k index, digestible fs archives →
  ∃ index', indexArchives clock k fs baseURL archives index = (index', None)
    ∧ APIVersion index' = APIVersion index
    ∧ Generated index' = Generated index
    ∧ (wellKeyed index → wellKeyed index')
    ∧ ∀ name, entriesOf index' name
              = entriesOf index name
                ++ filter (λ cv : ChartVersion, Name cv = name)
                     (omap (λ p, archiveRecord (clock p.1) fs baseURL p.2)
                        (numberedFrom k (filter (λ arch, loads fs arch) archives))).
Proof.
  induction archives as [|arch archives IH]; intros k index Harch; simpl.
  - exists index. repeat split; try done. intros name. by rewrite app_nil_r.
  - assert (digestible fs archives) as Hrest
      by (intros a md Ha; apply Harch; by right).
    destruct (chartutil_Load fs arch) as [?|md] eqn:Hload.
    + rewrite filter_cons_False by (unfold loads; rewrite Hload; exact id).
      by apply IH.
    + rewrite filter_cons_True by (unfold loads; rewrite Hload; exact I).
      destruct (Harch arch md) as [hash Hhash]; [left | done |]. rewrite Hhash.
      destruct (IH (S k) (Add (clock k) index md (filepath_Base arch) baseURL hash)
                  Hrest)
        as (index' & -> & Hv & Hgen & Hkeyed & Hrecords).
      exists index'. split; [done|]. split; [by rewrite Hv, Add_APIVersion|].
      split; [by rewrite Hgen, Add_Generated|].
      split; [intros ?; by apply Hkeyed, Add_wellKeyed|].
      intros name. rewrite Hrecords, Add_entriesOf, <- (assoc_L app). f_equal.
      assert (archiveRecord (clock k) fs baseURL arch
              = Some (addedRecord (clock k) md (filepath_Base arch) baseURL hash))
        as Hrecord by (unfold archiveRecord; by rewrite Hload, Hhash).
      simpl. rewrite Hrecord, filter_cons. simpl.
      by destruct (decide (Name md = name)).
Qed.

(** X16.  When every archive that loads has a digest, [IndexDirectory]
    returns no error and a well-keyed catalog of the current format,
    stamped with the first reading of the clock, that holds, under every
    name, one record for each archive carrying that name, in the order of
    the listing; the record of the [k]-th archive that loads has reading
    [k] of the clock as its time of creation, and archives that fail to
    load leave no trace and take no reading. *)
Theorem IndexDirectory_records (clock : Clock) (fs : FS) (dir baseURL : string)
    (archives : list string) :
  filepath_Glob fs (filepath_Join [dir; "*.tgz"]) = inr archives →
  digestible fs archives →
  ∃ index, IndexDirectory clock fs dir baseURL = (Some index, None)
    ∧ APIVersion index = APIVersionV1
    ∧ Generated index = clock 0
    ∧ wellKeyed index
    ∧ ∀ name, entriesOf index name
              = filter (λ cv : ChartVersion, Name cv = name)
                  (omap (λ p, archiveRecord (clock p.1) fs baseURL p.2)
                     (numberedFrom 1 (filter (λ arch, loads fs arch) archives))).
Proof.
  intros Hglob Harch. unfold IndexDirectory. rewrite Hglob.
  destruct (indexArchives_digestible clock fs baseURL archives 1
              (NewIndexFile (clock 0)) Harch)
    as (index & -> & Hv & Hgen & Hkeyed & Hrecords).
  exists index. split; [done|]. split; [done|]. split; [done|].
  split; [apply Hkeyed, map_Forall_empty|]. intros name. by rewrite Hrecords.
Qed.

(** X17.  When the digest of an archive that loads cannot be computed,
    [IndexDirectory] stops there: it returns the digest error together
    with the catalog built so far, which holds the records of the
    archives listed before, each stamped with the reading of the clock of
    its own [Add], and nothing of the archives listed after. *)
Theorem IndexDirectory_aborts (clock : Clock) (fs : FS) (dir baseURL : string)
    (pre post : list string) (arch : string) (md : chart_Metadata)
    (err : string) :
  filepath_Glob fs (filepath_Join [dir; "*.tgz"]) = inr (pre ++ arch :: post) →
  digestible fs pre →
  chartutil_Load fs arch = inr md →
  provenance_DigestFile fs arch = inl err →
  ∃ index, IndexDirectory clock fs dir baseURL = (Some index, Some (ErrExternal err))
    ∧ Generated index = clock 0
    ∧ wellKeyed index
    ∧ ∀ name, entriesOf index name
              = filter (λ cv : ChartVersion, Name cv = name)
                  (omap (λ p, archiveRecord (clock p.1) fs baseURL p.2)
                     (numberedFrom 1 (filter (λ arch, loads fs arch) pre))).
Proof.
  intros Hglob Hpre Hload Hdigest. unfold IndexDirectory. rewrite Hglob.
  rewrite (indexArchives_app clock fs baseURL pre (arch :: post) _ _ Hpre).
  destruct (indexArchives_digestible clock fs baseURL pre 1
              (NewIndexFile (clock 0)) Hpre)
    as (index & -> & _ & Hgen & Hkeyed & Hrecords).
  simpl. rewrite Hload, Hdigest.
  exists index. split; [done|]. split; [done|].
  split; [apply Hkeyed, map_Forall_empty|].
  intros name. by rewrite Hrecords.
Qed.

End indexing.

Lemma IndexDirectory_records_witness :
  ∃ index, IndexDirectory (H := plainPaths) (H0 := tidyIO) (ticks 5%Z) ∅ "charts" ""
           = (Some index, None)
    ∧ Generated index = 5%Z
    ∧ entriesOf index "a"
      = [addedRecord (H := plainPaths) 6%Z
           {| Name := "a"; Version := "1.0.0"; Fields := [] |}
           "a-1.0.0.tgz" "" "sha256:charts/a-1.0.0.tgz"]
    ∧ entriesOf index "b"
      = [addedRecord (H := plainPaths) 7%Z
           {| Name := "b"; Version := "2.0.0"; Fields := [] |}
           "b-2.0.0.tgz" "" "sha256:charts/b-2.0.0.tgz"].
Proof.
  destruct (IndexDirectory_records (P := plainPaths) (IO := tidyIO) (ticks 5%Z) ∅
              "charts" ""
              ["charts/a-1.0.0.tgz"; "charts/notes.tgz"; "charts/b-2.0.0.tgz"])
    as (index & Hindex & _ & Hgen & _ & Hrecords); [reflexivity | |].
  - intros arch md _ _. by eexists.
  - exists index. split; [exact Hindex|]. split; [exact Hgen|].
    rewrite !Hrecords. split; reflexivity.
Defined.

Lemma IndexDirectory_aborts_witness :
  ∃ index, IndexDirectory (H := plainPaths) (H0 := sampleIO) (ticks 5%Z) ∅ "charts" ""
           = (Some index, Some (ErrExternal "unreadable"))
    ∧ Created <$> entriesOf index "b" = [7%Z] ∧ entriesOf index "d" = [].
Proof.
  destruct (IndexDirectory_aborts (P := plainPaths) (IO := sampleIO) (ticks 5%Z) ∅
              "charts" ""
              ["charts/a-1.0.0.tgz"; "charts/notes.tgz"; "charts/b-2.0.0.tgz"]
              ["charts/d-0.2.0.tgz"] "charts/c-0.1.0.tgz"
              {| Name := "c"; Version := "0.1.0"; Fields := [] |} "unreadable")
    as (index & Hindex & _ & _ & Hrecords);
    [reflexivity | | reflexivity | reflexivity |].
  - intros arch md Harch _.
    apply list_elem_of_In in Harch. simpl in Harch.
    destruct Harch as [<-|[<-|[<-|[]]]]; by eexists.
  - exists index. split; [exact Hindex|]. rewrite !Hrecords. split; reflexivity.
Defined.

(** ** Files and downloads *)

Section files.
Context `{D : Decoder} `{O : MapOrder} `{P : PathLib} `{IO : IOLib}.

(** Whether a document loads does not depend on the readings of the clock. *)
Lemma LoadIndex_isOK_now (clock clock' : Clock) (data : string) :
  isOK (LoadIndex clock data) = isOK (LoadIndex clock' data).
Proof.
  unfold LoadIndex. destruct (yaml_Unmarshal data) as [?|i]; [done|].
  case_decide; [|done]. unfold loadUnversionedIndex.
  destruct (yaml_YAMLToJSON data) as [?|json]; [done|].
  destruct (json_Unmarshal json) as [?|m]; [done|]. by case_decide.
Qed.

(** X18.  [DownloadIndexFile] writes only what [LoadIndex] accepts: either
    the body fetched loads as a catalog and the outcome is that of
    writing this body to the index file, or the call returns an error
    and the file system is what it was. *)
Theorem DownloadIndexFile_validates (clock : Clock) (fs fs' : FS)
    (repoName url indexFilePath : string) (err : option error) :
  DownloadIndexFile clock fs repoName url indexFilePath = (err, fs') →
  (∃ resp b i werr,
     http_Get (indexURL url) = inr resp ∧ ioutil_ReadAll resp = inr b
     ∧ LoadIndex clock b = OK i
     ∧ ioutil_WriteFile fs indexFilePath b indexFileMode = (werr, fs')
     ∧ err = ErrExternal <$> werr)
  ∨ (fs' = fs ∧ is_Some err).
Proof.
  unfold DownloadIndexFile.
  destruct (http_Get (indexURL url)) as [?|resp] eqn:Hget;
    [intros [= <- <-]; right; by split|].
  destruct (ioutil_ReadAll resp) as [?|b] eqn:Hread;
    [intros [= <- <-]; right; by split|].
  destruct (LoadIndex clock b) as [i|e] eqn:Hload;
    [|intros [= <- <-]; right; by split].
  destruct (ioutil_WriteFile fs indexFilePath b indexFileMode) as [werr fs'']
    eqn:Hwrite.
  intros [= <- <-]. left. by exists resp, b, i, werr.
Qed.

(** X19.  After a download that returned no error, the index file loads:
    on a file system that gives back what was written, [LoadIndexFile]
    of the path downloaded to succeeds. *)
Theorem DownloadIndexFile_then_LoadIndexFile (clock clock' : Clock) (fs fs' : FS)
    (repoName url indexFilePath : string) :
  readsBack →
  DownloadIndexFile clock fs repoName url indexFilePath = (None, fs') →
  isOK (LoadIndexFile clock' fs' indexFilePath) = true.
Proof.
  intros Hback. unfold DownloadIndexFile, LoadIndexFile.
  destruct (http_Get (indexURL url)) as [?|resp]; [done|].
  destruct (ioutil_ReadAll resp) as [?|b]; [done|].
  destruct (LoadIndex clock b) as [i|e] eqn:Hload; [|done].
  destruct (ioutil_WriteFile fs indexFilePath b indexFileMode) as [[werr|] fs'']
    eqn:Hwrite; [done|].
  intros [= <-]. rewrite (Hback _ _ _ _ _ Hwrite).
  by rewrite (LoadIndex_isOK_now clock' clock), Hload.
Qed.

(** X20.  One trailing slash of the repository URL is dropped before the
    file name of the catalog is added: a URL that does not end with a
    slash and the same URL followed by a slash are downloaded alike. *)
Theorem DownloadIndexFile_trailing_slash (clock : Clock) (fs : FS)
    (repoName url indexFilePath : string) :
  strings.HasSuffix url "/" = false →
  indexURL (url +:+ "/") = url +:+ "/index.yaml"
  ∧ DownloadIndexFile clock fs repoName (url +:+ "/") indexFilePath
    = DownloadIndexFile clock fs repoName url indexFilePath.
Proof.
  intros Hslash.
  assert (indexURL (url +:+ "/") = indexURL url) as Heq.
  { unfold indexURL. rewrite TrimSuffix_app.
    unfold strings.TrimSuffix. by rewrite Hslash. }
  split.
  - rewrite Heq. unfold indexURL, strings.TrimSuffix. by rewrite Hslash.
  - unfold DownloadIndexFile. by rewrite Heq.
Qed.

Context `{E : Encoder}.

(** X21.  A catalog with a non-empty format tag that [WriteFile] wrote
    without error is read back as itself by [LoadIndexFile], on a file
    system that gives back what was written and with a decoder that
    inverts the encoder on this catalog. *)
Theorem WriteFile_then_LoadIndexFile (clock : Clock) (fs fs' : FS)
    (i : IndexFile) (dest : string) (mode : N) :
  readsBack →
  (∀ b, yaml_Marshal i = inr b → yaml_Unmarshal b = inr i) →
  APIVersion i ≠ "" →
  WriteFile fs i dest mode = (None, fs') →
  LoadIndexFile clock fs' dest = OK i.
Proof.
  intros Hback Hcodec Hv. unfold WriteFile, LoadIndexFile.
  destruct (yaml_Marshal i) as [?|b] eqn:Hb; [done|].
  destruct (ioutil_WriteFile fs dest b mode) as [[werr|] fs''] eqn:Hwrite; [done|].
  intros [= <-]. rewrite (Hback _ _ _ _ _ Hwrite).
  unfold LoadIndex. rewrite (Hcodec b eq_refl). by rewrite decide_False.
Qed.

End files.

Lemma tableIO_readsBack archives charts digests web :
  readsBack (H := tableIO archives charts digests web).
Proof.
  intros fs fs' path data mode [= <-]. simpl. by rewrite lookup_insert_eq.
Qed.

Lemma DownloadIndexFile_validates_witness :
  DownloadIndexFile (H := sampleDecoder) (H0 := listOrder) (H1 := plainPaths)
    (H2 := sampleIO) (ticks 5%Z) {[ "index.yaml" := "old" ]} "stable"
    "http://example.org" "index.yaml"
  = (Some (ErrExternal "connection refused"), {[ "index.yaml" := "old" ]}).
Proof.
  destruct (DownloadIndexFile (H := sampleDecoder) (H0 := listOrder)
              (H1 := plainPaths) (H2 := sampleIO) (ticks 5%Z) {[ "index.yaml" := "old" ]}
              "stable" "http://example.org" "index.yaml") as [err fs'] eqn:Hcall.
  destruct (DownloadIndexFile_validates (D := sampleDecoder) (O := listOrder)
              (P := plainPaths) (IO := sampleIO) _ _ _ _ _ _ _ Hcall)
    as [(resp & b & i & werr & Hget & _)|[-> _]].
  - vm_compute in Hget. discriminate Hget.
  - rewrite <- Hcall. reflexivity.
Defined.

Lemma DownloadIndexFile_then_LoadIndexFile_witness :
  isOK (LoadIndexFile (H := sampleDecoder) (H0 := listOrder) (H1 := plainPaths)
          (H2 := sampleIO) (ticks 8%Z) {[ "index.yaml" := "apiVersion: v1" ]} "index.yaml")
  = true.
Proof.
  apply (DownloadIndexFile_then_LoadIndexFile (D := sampleDecoder) (O := listOrder)
           (P := plainPaths) (IO := sampleIO) (ticks 5%Z) (ticks 8%Z) ∅ _ "stable"
           "http://example.com/" "index.yaml").
  - apply tableIO_readsBack.
  - reflexivity.
Defined.

Lemma DownloadIndexFile_trailing_slash_witness :
  indexURL "http://example.com/" = "http://example.com/index.yaml".
Proof.
  apply (DownloadIndexFile_trailing_slash (D := sampleDecoder) (O := listOrder)
           (P := plainPaths) (IO := sampleIO) (ticks 5%Z) ∅ "stable"
           "http://example.com" "index.yaml").
  reflexivity.
Defined.

Lemma WriteFile_then_LoadIndexFile_witness :
  LoadIndexFile (H := sampleDecoder) (H0 := listOrder) (H1 := plainPaths)
    (H2 := sampleIO) (ticks 8%Z) {[ "out.yaml" := "apiVersion: v1" ]} "out.yaml"
  = OK (catalog []).
Proof.
  apply (WriteFile_then_LoadIndexFile (D := sampleDecoder) (O := listOrder)
           (P := plainPaths) (IO := sampleIO) (E := sampleEncoder)
           (ticks 8%Z) ∅ _ (catalog []) "out.yaml" indexFileMode).
  - apply tableIO_readsBack.
  - intros b [= <-]. reflexivity.
  - discriminate.
  - reflexivity.
Defined.

(** ** The repository provider, continued *)

Lemma createRepo_resolved rp cr :
  resolved rp (createRepo rp cr).1 (createRepo rp cr).2
  ∧ ∀ r, (createRepo rp cr).1 = OK r → r = cr.
Proof.
  unfold createRepo, resolved.
  destruct (repos rp !! GetName cr) eqn:Hname; simpl.
  - repeat split; done.
  - repeat split; try done.
    + right. by split.
    + by intros r [= <-].
Qed.

Lemma createRepoByType_resolved rp d :
  resolved rp (createRepoByType rp d).1 (createRepoByType rp d).2.
Proof.
  unfold createRepoByType. case_decide; [|by repeat split].
  destruct (GetGCSRepo (gcsrp rp) d); [|by repeat split].
  apply createRepo_resolved.
Qed.

Lemma GetRepoByName_resolved rp name :
  resolved rp (GetRepoByName rp name).1 (GetRepoByName rp name).2.
Proof.
  unfold GetRepoByName. destruct (repos rp !! name) as [r|] eqn:Hname.
  - repeat split; try done. left. split; [done|]. by exists name.
  - destruct (rs_Get (rs rp) name); [|by repeat split].
    apply createRepoByType_resolved.
Qed.

Lemma GetRepoByURL_resolved `{O : MapOrder} rp URL :
  resolved rp (GetRepoByURL rp URL).1 (GetRepoByURL rp URL).2.
Proof.
  unfold GetRepoByURL.
  pose proof (findRepoByURL_longestMatch rp URL) as Hfound.
  destruct (findRepoByURL rp URL) as [r|].
  - destruct Hfound as (Hin & _). apply elem_of_mapRange_values in Hin.
    repeat split; try done. left. by split.
  - destruct (rs_GetByURL (rs rp) URL); [|by repeat split].
    apply createRepoByType_resolved.
Qed.

Lemma resolved_keyedByName rp res rp' :
  resolved rp res rp' → keyedByName rp → keyedByName rp'.
Proof.
  intros (_ & _ & Hres) Hkeyed. destruct res as [r|e]; [|by subst].
  destruct Hres as [[-> _]|[_ ->]]; [done|].
  unfold keyedByName. simpl. by apply map_Forall_insert_2.
Qed.

Lemma resolved_subseteq rp res rp' :
  resolved rp res rp' → repos rp ⊆ repos rp'.
Proof.
  intros (_ & _ & Hres). destruct res as [r|e]; [|by subst].
  destruct Hres as [[-> _]|[Hfree ->]]; [done|]. simpl.
  by apply insert_subseteq.
Qed.

(** The provider [GetChartByReference] leaves is the one it was given or
    the one a resolution by URL leaves. *)
Lemma GetChartByReference_provider `{O : MapOrder} `{C : ChartLib} rp reference :
  (GetChartByReference rp reference).2 = rp
  ∨ ∃ URL, (GetChartByReference rp reference).2 = (GetRepoByURL rp URL).2.
Proof.
  unfold GetChartByReference.
  destruct (ParseGCSChartReference reference) as [l|e]; [|by left].
  destruct (Long l true) as [?|URL]; [by left|].
  right. exists URL.
  destruct (GetRepoByURL rp URL) as [[r|e] rp1]; [|done].
  by destruct (GetChart r (chartFileName l)).
Qed.

Section resolution.
Context `{O : MapOrder}.

(** X22.  What [GetRepoByName] and [GetRepoByURL] do to the provider: a
    call that returns an error leaves the provider as it was; a call that
    returns a handle either found it in the cache and changed nothing,
    or inserted it under its own name, which was free.  No call removes
    or replaces a cached handle, and none touches the services. *)
Theorem resolution_outcome (rp : repoProvider) (key : string) :
  resolved rp (GetRepoByName rp key).1 (GetRepoByName rp key).2
  ∧ resolved rp (GetRepoByURL rp key).1 (GetRepoByURL rp key).2
  ∧ repos rp ⊆ repos (GetRepoByName rp key).2
  ∧ repos rp ⊆ repos (GetRepoByURL rp key).2.
Proof.
  split; [apply GetRepoByName_resolved|].
  split; [apply GetRepoByURL_resolved|]. split.
  - eapply resolved_subseteq, GetRepoByName_resolved.
  - eapply resolved_subseteq, GetRepoByURL_resolved.
Qed.

(** X23.  That every cached handle is stored under its own name is an
    invariant of the provider: it holds of a provider whose cache is
    empty, and a call of [GetRepoByName], of [GetRepoByURL] or of
    [GetChartByReference] on a provider of which it holds leaves a
    provider of which it holds, whatever the call returns. *)
Theorem keyedByName_invariant `{C : ChartLib} :
  (∀ rp, repos rp = ∅ → keyedByName rp)
  ∧ (∀ rp name, keyedByName rp → keyedByName (GetRepoByName rp name).2)
  ∧ (∀ rp URL, keyedByName rp → keyedByName (GetRepoByURL rp URL).2)
  ∧ (∀ rp reference, keyedByName rp →
       keyedByName (GetChartByReference rp reference).2).
Proof.
  split.
  { intros rp Hempty. unfold keyedByName. rewrite Hempty. apply map_Forall_empty. }
  split; [|split].
  - intros rp name. eapply resolved_keyedByName, GetRepoByName_resolved.
  - intros rp URL. eapply resolved_keyedByName, GetRepoByURL_resolved.
  - intros rp reference Hkeyed.
    destruct (GetChartByReference_provider rp reference) as [->|[URL ->]]; [done|].
    eapply resolved_keyedByName; [apply GetRepoByURL_resolved | done].
Qed.

(** X24.  [findRepoByURL] finds no handle exactly when no cached handle
    has a base URL that is a prefix of the URL asked for; only then does
    [GetRepoByURL] ask the descriptor service. *)
Theorem findRepoByURL_None (rp : repoProvider) (URL : string) :
  findRepoByURL rp URL = None
  ↔ ∀ name r, repos rp !! name = Some r →
      strings.HasPrefix URL (GetURL r) = false.
Proof.
  pose proof (findRepoByURL_longestMatch rp URL) as Hfound. split.
  - intros Hnone name r Hr. rewrite Hnone in Hfound. apply Hfound.
    apply elem_of_mapRange_values. by exists name.
  - intros Hall. destruct (findRepoByURL rp URL) as [f|]; [|done].
    destruct Hfound as (Hin & Hpre & _).
    apply elem_of_mapRange_values in Hin as [name Hname].
    rewrite (Hall name f Hname) in Hpre. done.
Qed.

(** X25.  Resolving a name a second time.  After [GetRepoByName] has made
    a handle for a name that was not cached, the same call returns the
    same handle from the cache if the handle bears the name asked for;
    if the service answered with a repository of another name, the same
    call fails with the duplicate-repository error, the handle being
    cached under its own name only. *)
Theorem GetRepoByName_again (rp rp' : repoProvider) (name : string)
    (r : IChartRepo) :
  repos rp !! name = None →
  GetRepoByName rp name = (OK r, rp') →
  (GetName r = name → GetRepoByName rp' name = (OK r, rp'))
  ∧ (GetName r ≠ name →
       GetRepoByName rp' name = (Fail (duplicateRepository (GetName r)), rp')).
Proof.
  intros Hfree. unfold GetRepoByName at 1. rewrite Hfree.
  destruct (rs_Get (rs rp) name) as [d|] eqn:Hd; [|done].
  unfold createRepoByType. case_decide as Htype; [|done].
  destruct (GetGCSRepo (gcsrp rp) d) as [cr|] eqn:Hcr; [|done].
  unfold createRepo. destruct (repos rp !! GetName cr) eqn:Hname; [done|].
  intros [= <- <-]. split.
  - intros Heq. unfold GetRepoByName. simpl. rewrite <- Heq.
    by rewrite lookup_insert_eq.
  - intros Hne. unfold GetRepoByName. simpl.
    rewrite lookup_insert_ne by done. rewrite Hfree, Hd.
    unfold createRepoByType. simpl. rewrite decide_True by done. rewrite Hcr.
    unfold createRepo. simpl. by rewrite lookup_insert_eq.
Qed.

(** X26.  Resolving a URL a second time.  After [GetRepoByURL] has made a
    handle for a URL that no cached handle matched, the same call returns
    the same handle from the cache if the handle's base URL is a prefix
    of the URL; if it is not, the same call fails with the
    duplicate-repository error. *)
Theorem GetRepoByURL_again (rp rp' : repoProvider) (URL : string)
    (r : IChartRepo) :
  findRepoByURL rp URL = None →
  GetRepoByURL rp URL = (OK r, rp') →
  (strings.HasPrefix URL (GetURL r) = true →
     GetRepoByURL rp' URL = (OK r, rp'))
  ∧ (strings.HasPrefix URL (GetURL r) = false →
       GetRepoByURL rp' URL = (Fail (duplicateRepository (GetName r)), rp')).
Proof.
  intros Hnone.
  assert (∀ name h, repos rp !! name = Some h →
            strings.HasPrefix URL (GetURL h) = false) as Hmiss.
  { pose proof (findRepoByURL_longestMatch rp URL) as Hfound.
    rewrite Hnone in Hfound. intros name h Hh. apply Hfound.
    apply elem_of_mapRange_values. by exists name. }
  unfold GetRepoByURL at 1. rewrite Hnone.
  destruct (rs_GetByURL (rs rp) URL) as [d|] eqn:Hd; [|done].
  unfold createRepoByType. case_decide as Htype; [|done].
  destruct (GetGCSRepo (gcsrp rp) d) as [cr|] eqn:Hcr; [|done].
  unfold createRepo. destruct (repos rp !! GetName cr) eqn:Hname; [done|].
  intros [= <- <-].
  set (rp' := setRepos rp (<[GetName cr := cr]> (repos rp))).
  assert (∀ name h, repos rp' !! name = Some h → h = cr ∨ ∃ n, repos rp !! n = Some h)
    as Hcached.
  { intros name h. simpl. destruct (decide (GetName cr = name)) as [->|Hne].
    - rewrite lookup_insert_eq. intros [= <-]. by left.
    - rewrite lookup_insert_ne by done. intros Hh. right. by exists name. }
  pose proof (findRepoByURL_longestMatch rp' URL) as Hfound.
  split.
  - intros Hpre. unfold GetRepoByURL.
    destruct (findRepoByURL rp' URL) as [f|].
    + destruct Hfound as (Hin & Hf & _).
      apply elem_of_mapRange_values in Hin as [name Hin].
      destruct (Hcached name f Hin) as [->|[n Hn]]; [done|].
      rewrite (Hmiss n f Hn) in Hf. done.
    + assert (cr ∈ (mapRange (repos rp')).*2) as Hin.
      { apply elem_of_mapRange_values. exists (GetName cr). simpl.
        by rewrite lookup_insert_eq. }
      rewrite (Hfound cr Hin) in Hpre. done.
  - intros Hpre. unfold GetRepoByURL.
    destruct (findRepoByURL rp' URL) as [f|].
    + destruct Hfound as (Hin & Hf & _).
      apply elem_of_mapRange_values in Hin as [name Hin].
      destruct (Hcached name f Hin) as [->|[n Hn]]; [congruence|].
      rewrite (Hmiss n f Hn) in Hf. done.
    + simpl. rewrite Hd. unfold createRepoByType. simpl.
      rewrite decide_True by done. rewrite Hcr.
      unfold createRepo. simpl. by rewrite lookup_insert_eq.
Qed.

End resolution.

Lemma keyedByName_invariant_witness :
  keyedByName (GetRepoByName served "alias").2
  ∧ keyedByName
      (GetChartByReference (H := listOrder) (H0 := sampleCharts) served "a/1.0.0").2.
Proof.
  destruct (keyedByName_invariant (O := listOrder) (C := sampleCharts))
    as (Hempty & Hname & _ & Hreference).
  split; [apply Hname | apply Hreference]; apply Hempty; reflexivity.
Defined.

Lemma findRepoByURL_None_witness :
  findRepoByURL (H := listOrder) store "http://elsewhere.example.com/charts" = None.
Proof.
  apply (findRepoByURL_None (O := listOrder) store).
  intros name r Hr. apply elem_of_list_to_map_2, list_elem_of_In in Hr.
  simpl in Hr. destruct Hr as [[= <- <-]|[[= <- <-]|[]]]; reflexivity.
Defined.

Lemma GetRepoByName_again_witness :
  GetRepoByName (GetRepoByName served "alias").2 "alias"
  = (Fail (duplicateRepository "real"), (GetRepoByName served "alias").2)
  ∧ GetRepoByName (GetRepoByName served "real").2 "real"
    = (OK (handle "real" "gs://real"), (GetRepoByName served "real").2).
Proof.
  split.
  - apply (GetRepoByName_again served _ "alias" (handle "real" "gs://real"));
      [reflexivity | reflexivity | discriminate].
  - apply (GetRepoByName_again served _ "real" (handle "real" "gs://real"));
      reflexivity.
Defined.

Lemma GetRepoByURL_again_witness :
  GetRepoByURL (H := listOrder)
    (GetRepoByURL (H := listOrder) served "gs://mirror/a-1.0.0.tgz").2
    "gs://mirror/a-1.0.0.tgz"
  = (Fail (duplicateRepository "real"),
     (GetRepoByURL (H := listOrder) served "gs://mirror/a-1.0.0.tgz").2).
Proof.
  apply (GetRepoByURL_again (O := listOrder) served _ "gs://mirror/a-1.0.0.tgz"
           (handle "real" "gs://real")); reflexivity.
Defined.

(** ** Chart references and storage clients *)

Section references.
Context `{O : MapOrder} `{C : ChartLib}.

(** X27.  [GetChartByReference] serves only references that
    [IsGCSChartReference] accepts, and leaves the provider alone when it
    rejects one.  When it returns a chart, the chart is the one the handle
    returned gives for [<name>-<version>.tgz], the handle being the one
    [GetRepoByURL] resolves for the long URL of the reference.  Whatever it
    returns, the provider afterwards is the one it was given or the one
    the resolution left: a chart that cannot be fetched does not undo the
    registration of its repository. *)
Theorem GetChartByReference_outcome (rp rp' : repoProvider) (reference : string)
    (res : result (Chart * IChartRepo)) :
  GetChartByReference rp reference = (res, rp') →
  (IsGCSChartReference reference = false → rp' = rp ∧ isOK res = false)
  ∧ (∀ c r, res = OK (c, r) →
       IsGCSChartReference reference = true
       ∧ ∃ l URL, ParseGCSChartReference reference = OK l
           ∧ Long l true = inr URL
           ∧ GetRepoByURL rp URL = (OK r, rp')
           ∧ GetChart r (chartFileName l) = OK c)
  ∧ (rp' = rp ∨ ∃ l URL, ParseGCSChartReference reference = OK l
                 ∧ Long l true = inr URL
                 ∧ rp' = (GetRepoByURL rp URL).2).
Proof.
  unfold GetChartByReference, IsGCSChartReference.
  destruct (ParseGCSChartReference reference) as [l|e] eqn:Hparse; simpl.
  2: { intros [= <- <-]. repeat split; try done. by left. }
  destruct (Long l true) as [?|URL] eqn:Hlong.
  { intros [= <- <-]. repeat split; try done. by left. }
  destruct (GetRepoByURL rp URL) as [[r|e] rp1] eqn:Hresolve.
  2: { intros [= <- <-]. repeat split; try done.
       right. exists l, URL. by rewrite Hresolve. }
  destruct (GetChart r (chartFileName l)) as [c|e] eqn:Hchart.
  - intros [= <- <-]. split; [done|]. split.
    + intros c' r' [= <- <-]. split; [done|]. by exists l, URL.
    + right. exists l, URL. by rewrite Hresolve.
  - intros [= <- <-]. repeat split; try done.
    right. exists l, URL. by rewrite Hresolve.
Qed.

End references.

Lemma GetChartByReference_outcome_witness :
  (GetChartByReference (H := listOrder) (H0 := sampleCharts) served "b/2.0.0").2
  = (GetRepoByURL (H := listOrder) served "gs://real/b-2.0.0.tgz").2
  ∨ (GetChartByReference (H := listOrder) (H0 := sampleCharts) served "b/2.0.0").2
    = served.
Proof.
  destruct (GetChartByReference (H := listOrder) (H0 := sampleCharts) served "b/2.0.0")
    as [res rp'] eqn:Hcall.
  destruct (GetChartByReference_outcome (O := listOrder) (C := sampleCharts)
              served rp' "b/2.0.0" res Hcall) as (_ & _ & [->|(l & URL & Hl & HURL & ->)]).
  - by right.
  - left. injection Hl as <-. injection HURL as <-. reflexivity.
Defined.

Section clients.
Context `{G : GCSLib}.

(** X28.  Credentials never make [GetGCSRepo] return an error: the handle
    is built with the default client when the descriptor names no
    credential or one that the credential provider does not know, and an
    error that [GetGCSRepo] returns is an error of [NewGCSRepo].  (A
    credential that is known and is no service account ends the process.) *)
Theorem GetGCSRepo_degrades (r : IRepo) :
  ((GetCredentialName r = ""
    ∨ ∃ err, GetCredential (GetCredentialName r) = inl err) →
     gcsRepoProvider.GetGCSRepo r
     = Returns (NewGCSRepo (repoName r) (repoURL r) (GetCredentialName r)
                  DefaultClient))
  ∧ (∀ err, gcsRepoProvider.GetGCSRepo r = Returns (Fail err) →
       ∃ client, NewGCSRepo (repoName r) (repoURL r) (GetCredentialName r) client
                 = Fail err)
  ∧ (∀ err, gcsRepoProvider.createGCSClient (GetCredentialName r)
            ≠ Returns (Fail err)).
Proof.
  unfold gcsRepoProvider.GetGCSRepo, gcsRepoProvider.createGCSClient.
  split; [|split].
  - intros [->|[err Herr]]; [done|]. case_decide; [done|]. by rewrite Herr.
  - intros err. case_decide; [intros [= Hnew]; by eexists|].
    destruct (GetCredential (GetCredentialName r)); [intros [= Hnew]; by eexists|].
    destruct (JWTConfigFromJSON _); [done|]. intros [= Hnew]. by eexists.
  - intros err. case_decide; [done|].
    destruct (GetCredential (GetCredentialName r)); [done|].
    by destruct (JWTConfigFromJSON _).
Qed.

End clients.

Lemma GetGCSRepo_degrades_witness :
  gcsRepoProvider.GetGCSRepo (H := sampleGCS)
    {| repoName := "real"; repoURL := "gs://real";
       GetType := GCSRepoType; GetCredentialName := "unknown" |}
  = Returns (OK {| GetName := "real"; GetURL := "gs://real";
                   credentialName := "unknown"; client := "default" |}).
Proof.
  apply (GetGCSRepo_degrades (G := sampleGCS)
           {| repoName := "real"; repoURL := "gs://real";
              GetType := GCSRepoType; GetCredentialName := "unknown" |}).
  right. by eexists.
Defined.
